(** * HandlerRenderCreateJS: the render handler of Platypus

    A shallow embedding of [src/components/HandlerRenderCreateJS.js]: the
    per-tick render / cull / sort / update cycle, pause bookkeeping, the
    arbitration between parallel render handlers, the translation of stage
    pointer events to world coordinates and the public query
    [getWorldPointFromScreen].

    Numbers are exact rationals ([Qc]); the rounding of IEEE doubles is not
    modelled.  JavaScript objects used as maps (the camera, the render
    message, the extra content) are [gmap]s keyed by property name; reading a
    missing property of the camera yields [Undefined], as in JavaScript. *)

From Stdlib Require Import QArith Qcanon Qround Lqa.
From stdpp Require Import base gmap strings list fin_maps numbers sorting.

Local Open Scope string_scope.
Local Open Scope list_scope.
Local Open Scope Qc_scope.

(** ** JavaScript values in numeric positions *)

(** [NaN] also stands for the other non-finite results (a division by zero);
    the handler never compares a quotient. *)
Inductive num :=
| Undefined
| NaN
| Num (q : Qc).

Definition Qc_leb (a b : Qc) : bool := Qle_bool a b.
Definition Qc_ltb (a b : Qc) : bool := negb (Qle_bool b a).
Definition Qc_eqb (a b : Qc) : bool := Qeq_bool a b.

(** ToBoolean: [undefined], [NaN] and [0] are falsy. *)
Definition truthy (v : num) : bool :=
  match v with
  | Num q => negb (Qc_eqb q 0)
  | _ => false
  end.

(** [a || b] *)
Definition js_or (a b : num) : num := if truthy a then a else b.

Definition js_add (a b : num) : num :=
  match a, b with
  | Num p, Num q => Num (p + q)
  | _, _ => NaN
  end.

Definition js_sub (a b : num) : num :=
  match a, b with
  | Num p, Num q => Num (p - q)
  | _, _ => NaN
  end.

Definition js_mul (a b : num) : num :=
  match a, b with
  | Num p, Num q => Num (p * q)
  | _, _ => NaN
  end.

Definition js_div (a b : num) : num :=
  match a, b with
  | Num p, Num q => if Qc_eqb q 0 then NaN else Num (p / q)
  | _, _ => NaN
  end.

(** The relational operators: false as soon as one operand is not a number
    (ToNumber(undefined) is NaN, and every comparison with NaN is false). *)
Definition js_lt (a b : num) : bool :=
  match a, b with
  | Num p, Num q => Qc_ltb p q
  | _, _ => false
  end.

Definition js_le (a b : num) : bool :=
  match a, b with
  | Num p, Num q => Qc_leb p q
  | _, _ => false
  end.

Definition js_gt (a b : num) : bool := js_lt b a.
Definition js_ge (a b : num) : bool := js_le b a.

(** ** The page *)

Record Window := {
  devicePixelRatio : num;
  (** [uagent.indexOf('android 4.1') > -1 || uagent.indexOf('android 4.2') > -1] *)
  android4 : bool
}.

(** [dpr = window.devicePixelRatio || 1] *)
Definition dpr (w : Window) : num := js_or (devicePixelRatio w) (Num 1).

(** ** Display list *)

(** What [getTransformedBounds()] returns when it is not [null]. *)
Module Rectangle.
Record t := make { x : num; y : num; width : num; height : num }.
End Rectangle.

(** A child of the stage, with the properties the handler reads or writes.
    [bounds] is the result of [child.getTransformedBounds()]. *)
Module Child.
Record t := make {
  name : string;
  hidden : bool;
  visible : bool;
  paused : bool;
  z : Qc;
  bounds : option Rectangle.t
}.

Definition set_visible (b : bool) (c : t) : t :=
  make (name c) (hidden c) b (paused c) (z c) (bounds c).

Definition set_paused (b : bool) (c : t) : t :=
  make (name c) (hidden c) (visible c) b (z c) (bounds c).
End Child.

Module Stage.
Record t := make {
  id : nat;
  children : list Child.t;
  reorder : bool;
  autoClear : bool;
  scaleX : num;
  scaleY : num
}.

Definition set_children (cs : list Child.t) (s : t) : t :=
  make (id s) cs (reorder s) (autoClear s) (scaleX s) (scaleY s).

Definition set_reorder (b : bool) (s : t) : t :=
  make (id s) (children s) b (autoClear s) (scaleX s) (scaleY s).

Definition set_autoClear (b : bool) (s : t) : t :=
  make (id s) (children s) (reorder s) b (scaleX s) (scaleY s).

Definition set_scale (sx sy : num) (s : t) : t :=
  make (id s) (children s) (reorder s) (autoClear s) sx sy.
End Stage.

(** ** Messages *)

(** The values a render message carries: numbers and references to stages. *)
Inductive value :=
| VNum (n : num)
| VStage (id : nat).

Record Resp := { delta : num }.

(** Reading a property of an object of numbers. *)
Definition prop (o : gmap string num) (k : string) : num :=
  default Undefined (o !! k).


(** ** Pointer events *)

(** The native event behind a stage event: an identity, and whether its
    [which] and [touches] properties are truthy. *)
Record NativeEvent := { native_id : nat; which : bool; touches : bool }.

Record StageEvent := { stageX : num; stageY : num; nativeEvent : NativeEvent }.

(** The payload [{event, x, y, entity: self.owner}] of the owner's
    'mousedown', 'mouseup' and 'mousemove' notifications. *)
Record Pick := { pick_event : NativeEvent; pick_x : num; pick_y : num }.

(** The variables that the closures of [setupInput] share. *)
Module Input.
Record t := make {
  triggerOnAllMovement : bool;
  cameraMovementMovesMouse : bool;
  originalEvent : option StageEvent;
  x : num;
  y : num
}.
End Input.

(** A screen point [sp] and the world point the public query returns. *)
Record Point := { point_x : num; point_y : num }.

(** ** What a handler does to the outside *)

Inductive action :=
| TriggerEventOnChildren (event : string) (message : gmap string value)
| TriggerEvent (event : string) (message : gmap string value)
| Trigger (event : string) (pick : Pick)
| HandleRenderLoad (stage : option nat)
| SortChildren
| TimeElapsed (phase : string)
| StageUpdate (resp : Resp)
| CanvasOpacity
| SetTimeout
| TouchEnable
| RemoveCanvas
| TypeError.

(** ** The component *)

Record Handler := mkHandler {
  (** [this.stage]; [None] once [destroy] has set it to [undefined] (the
      canvas is created and dropped together with it) *)
  stage : option Stage.t;
  camera : gmap string num;
  paused : num;
  renderMessage : gmap string value;
  handleChildren : bool;
  (** [this.extraContent]: [false], or an object *)
  extraContent : option (gmap string value);
  (** whether [load] registered the "handle-render-addition" listener *)
  additionListener : bool;
  (** whether the owner has a [triggerEventOnChildren] method *)
  triggerEventOnChildren : bool;
  (** the closure of [setupInput], when input was asked for *)
  input : option Input.t;
  (** [this.moveMouse]: the press event the armed callback captured *)
  moveMouse : option StageEvent
}.

Definition set_stage (s : option Stage.t) (h : Handler) : Handler :=
  mkHandler s (camera h) (paused h) (renderMessage h) (handleChildren h)
    (extraContent h) (additionListener h) (triggerEventOnChildren h) (input h)
    (moveMouse h).

Definition set_camera (c : gmap string num) (h : Handler) : Handler :=
  mkHandler (stage h) c (paused h) (renderMessage h) (handleChildren h)
    (extraContent h) (additionListener h) (triggerEventOnChildren h) (input h)
    (moveMouse h).

Definition set_paused (p : num) (h : Handler) : Handler :=
  mkHandler (stage h) (camera h) p (renderMessage h) (handleChildren h)
    (extraContent h) (additionListener h) (triggerEventOnChildren h) (input h)
    (moveMouse h).

Definition set_renderMessage (m : gmap string value) (h : Handler) : Handler :=
  mkHandler (stage h) (camera h) (paused h) m (handleChildren h)
    (extraContent h) (additionListener h) (triggerEventOnChildren h) (input h)
    (moveMouse h).

Definition set_handleChildren (b : bool) (h : Handler) : Handler :=
  mkHandler (stage h) (camera h) (paused h) (renderMessage h) b
    (extraContent h) (additionListener h) (triggerEventOnChildren h) (input h)
    (moveMouse h).

Definition set_extraContent (e : option (gmap string value)) (h : Handler)
  : Handler :=
  mkHandler (stage h) (camera h) (paused h) (renderMessage h) (handleChildren h)
    e (additionListener h) (triggerEventOnChildren h) (input h) (moveMouse h).

Definition set_additionListener (b : bool) (h : Handler) : Handler :=
  mkHandler (stage h) (camera h) (paused h) (renderMessage h) (handleChildren h)
    (extraContent h) b (triggerEventOnChildren h) (input h) (moveMouse h).

Definition set_input (i : option Input.t) (h : Handler) : Handler :=
  mkHandler (stage h) (camera h) (paused h) (renderMessage h) (handleChildren h)
    (extraContent h) (additionListener h) (triggerEventOnChildren h) i
    (moveMouse h).

Definition set_moveMouse (m : option StageEvent) (h : Handler) : Handler :=
  mkHandler (stage h) (camera h) (paused h) (renderMessage h) (handleChildren h)
    (extraContent h) (additionListener h) (triggerEventOnChildren h) (input h) m.

(** *** constructor *)

Record AcceptInput := {
  accept_touch : bool;
  accept_click : bool;
  accept_camera : bool;
  accept_movement : bool
}.

Record Definition_ := {
  def_autoClear : bool;
  acceptInput : option AcceptInput
}.

(** [new createjs.Stage(this.canvas)]: no child yet, unit scale, and
    EaselJS's default [autoClear = true]. *)
Definition new_Stage (id : nat) : Stage.t :=
  Stage.make id [] false true (Num 1) (Num 1).

(** [setupInput]: the closure variables, before any event. *)
Definition setupInput (enableTouch triggerOnAllMovement cameraMovementMovesMouse : bool)
  : Input.t * list action :=
  (Input.make triggerOnAllMovement cameraMovementMovesMouse None (Num 0) (Num 0),
   if enableTouch then [TouchEnable] else []).

Definition constructor (stage_id : nat) (owner_has_children : bool)
    (definition : Definition_) : Handler * list action :=
  let stage0 := new_Stage stage_id in
  let stage1 :=
    if def_autoClear definition then stage0 else Stage.set_autoClear false stage0 in
  let '(inp, log) :=
    match acceptInput definition with
    | Some a =>
        if accept_click a || accept_touch a
        then let '(i, l) := setupInput (accept_touch a) (accept_movement a)
                              (accept_camera a) in (Some i, l)
        else (None, [])
    | None => (None, [])
    end in
  (mkHandler (Some stage1)
     {[ "left" := Num 0; "top" := Num 0; "width" := Num 0; "height" := Num 0 ]}
     Undefined
     {[ "delta" := VNum (Num 0); "stage" := VStage stage_id ]}
     true None false owner_has_children inp None,
   log).

(** *** Objects walked with [for (i in o) if (o.hasOwnProperty(i))] *)

(** [dst[i] = src[i]] for every own property [i] of [src]. *)
Definition copy_properties (src dst : gmap string value) : gmap string value :=
  map_fold (λ i v m, <[i := v]> m) dst src.

(** [delete dst[i]] for every own property [i] of [src]. *)
Definition delete_properties (src dst : gmap string value) : gmap string value :=
  map_fold (λ i _ m, delete i m) dst src.

(** *** load *)

(** The loop over [this.owner.components], each given by its [type]; [self]
    is the index at which [this] sits, [i] the index of the head of [types]. *)
Fixpoint load_last (self i : nat) (types : list string) (last : option nat)
  : option nat :=
  match types with
  | [] => last
  | ty :: rest =>
      load_last self (S i) rest
        (if bool_decide (i = self)
            || String.eqb (String.substring 0 14 ty) "handler-render"
         then Some i else last)
  end.

Definition load (self : nat) (components : list string) (h : Handler) : Handler :=
  if bool_decide (load_last self 0 components None = Some self)
  then set_additionListener true h
  else set_handleChildren false h.

(** The listener of "handle-render-addition" that [load] registers. *)
Definition handle_render_addition (addition : gmap string value) (h : Handler)
  : Handler :=
  if additionListener h
  then set_extraContent
         (Some (copy_properties addition (default ∅ (extraContent h)))) h
  else h.

(** *** child-entity-added, pause-render, unpause-render *)

Definition child_entity_added (h : Handler) : Handler * list action :=
  (h, [HandleRenderLoad (Stage.id <$> stage h)]).

(** [resp] is [None] when the event carries no object, and otherwise holds
    [resp.time] ([Undefined] when the object has no [time]). *)
Definition pause_render (resp : option num) (h : Handler) : Handler :=
  match resp with
  | Some time => if truthy time then set_paused time h else set_paused (Num (-1)) h
  | None => set_paused (Num (-1)) h
  end.

Definition unpause_render (h : Handler) : Handler := set_paused (Num 0) h.

(** *** tick *)

(** The comparator handed to [sortChildren]. *)
Definition sort (a b : Child.t) : Qc := Child.z a - Child.z b.

(** [Array.prototype.sort] as ECMAScript specifies it (stable): an element
    moves behind exactly those it compares greater than. *)
Fixpoint array_insert (cmp : Child.t → Child.t → Qc) (c : Child.t)
    (l : list Child.t) : list Child.t :=
  match l with
  | [] => [c]
  | d :: l' =>
      if Qc_ltb 0 (cmp c d) then d :: array_insert cmp c l' else c :: d :: l'
  end.

Fixpoint array_sort (cmp : Child.t → Child.t → Qc) (l : list Child.t)
  : list Child.t :=
  match l with
  | [] => []
  | c :: l' => array_insert cmp c (array_sort cmp l')
  end.

(** EaselJS: [sortChildren(f)] is [this.children.sort(f)]. *)
Definition sortChildren (cmp : Child.t → Child.t → Qc) (s : Stage.t) : Stage.t :=
  Stage.set_children (array_sort cmp (Stage.children s)) s.

(** The condition under which a child with bounds is shown. *)
Definition in_camera (cam : gmap string num) (b : Rectangle.t) : bool :=
  js_ge (js_add (Rectangle.x b) (Rectangle.width b)) (prop cam "x")
  && js_le (Rectangle.x b) (js_add (prop cam "x") (prop cam "width"))
  && js_ge (js_add (Rectangle.y b) (Rectangle.height b)) (prop cam "y")
  && js_le (Rectangle.y b) (js_add (prop cam "y") (prop cam "height")).

(** The visibility part of the loop body. *)
Definition cull_visible (cam : gmap string num) (child : Child.t) : Child.t :=
  if Child.hidden child then
    if Child.visible child then Child.set_visible false child else child
  else if negb (String.eqb (Child.name child) "entity-managed") then
    if match Child.bounds child with
       | None => true
       | Some b => in_camera cam b
       end
    then if negb (Child.visible child) then Child.set_visible true child else child
    else if Child.visible child then Child.set_visible false child else child
  else child.

(** The pause part of the loop body; [p] is [this.paused]. *)
Definition cull_paused (p : num) (child : Child.t) : Child.t :=
  if Child.visible child then
    if Child.paused child && negb (truthy p) then Child.set_paused false child
    else if truthy p then Child.set_paused true child
    else child
  else child.

Definition cull_child (cam : gmap string num) (p : num) (child : Child.t)
  : Child.t :=
  cull_paused p (cull_visible cam child).

(** [for (x = children.length - 1; x > -1; x--)], entered with [n] the
    length of the list: the child at [x] is updated in place. *)
Fixpoint cull_loop (cam : gmap string num) (p : num) (n : nat)
    (children : list Child.t) : list Child.t :=
  match n with
  | 0%nat => children
  | S x =>
      match children !! x with
      | Some child =>
          cull_loop cam p x (<[x := cull_child cam p child]> children)
      | None => cull_loop cam p x children
      end
  end.

(** The pause countdown at the head of [tick]. *)
Definition countdown (p d : num) : num :=
  if js_gt p (Num 0) then
    let p' := js_sub p d in
    if js_lt p' (Num 0) then Num 0 else p'
  else p.

Section Tick.

Variable w : Window.

(** What the children's 'handle-render' handlers do to the display list when
    they receive the message. *)
Variable handle_render : gmap string value → Stage.t → Stage.t.

(** The part of [tick] that [if (this.handleChildren) ... else ...] covers;
    it returns the handler and what it sent out. *)
Definition dispatch (h : Handler) : Handler * list action :=
  let message := renderMessage h in
  if handleChildren h then
    let merged :=
      match extraContent h with
      | Some extra => copy_properties extra message
      | None => message
      end in
    let '(st, log) :=
      if triggerEventOnChildren h
      then (handle_render merged <$> stage h,
            [TriggerEventOnChildren "handle-render" merged])
      else (stage h, []) in
    let h1 := set_stage st h in
    match extraContent h with
    | Some extra =>
        (set_renderMessage (delete_properties extra merged)
           (set_extraContent (Some (delete_properties extra extra)) h1),
         log)
    | None => (set_renderMessage merged h1, log)
    end
  else (h, [TriggerEvent "handle-render-addition" message]).

(** The part of [tick] under [if (this.stage)]. *)
Definition render (resp : Resp) (p : num) (cam : gmap string num) (s : Stage.t)
  : Stage.t * list action :=
  let s1 :=
    Stage.set_children
      (cull_loop cam p (length (Stage.children s)) (Stage.children s)) s in
  let '(s2, sorted) :=
    if Stage.reorder s1
    then (sortChildren sort (Stage.set_reorder false s1), [SortChildren])
    else (s1, []) in
  (s2,
   (sorted ++ [TimeElapsed "Render-Prep"; StageUpdate resp]
      ++ (if android4 w && Stage.autoClear s2
          then [CanvasOpacity; SetTimeout] else [])
      ++ [TimeElapsed "Render"])%list).

(** The head of [tick]: [message.delta = resp.delta] and the pause countdown. *)
Definition prepare (resp : Resp) (h : Handler) : Handler :=
  let h1 :=
    set_renderMessage (<["delta" := VNum (delta resp)]> (renderMessage h)) h in
  set_paused (countdown (paused h1) (delta resp)) h1.

Definition tick (resp : Resp) (h : Handler) : Handler * list action :=
  let '(h3, sent) := dispatch (prepare resp h) in
  match stage h3 with
  | Some s =>
      let '(s', drawn) := render resp (paused h3) (camera h3) s in
      (set_stage (Some s') h3, (sent ++ drawn)%list)
  | None => (h3, sent)
  end.

End Tick.

(** *** Pointer translation, camera-update, destroy, the public query *)

Record CameraInfo := {
  viewportLeft : num;
  viewportTop : num;
  viewportWidth : num;
  viewportHeight : num;
  info_scaleX : num;
  info_scaleY : num
}.

Section Pointer.

Variable w : Window.

(** [setXY]: it reads [self.stage] and [self.camera] and writes the closure
    variables [originalEvent], [x] and [y]. *)
Definition setXY (s : Stage.t) (cam : gmap string num) (event : StageEvent)
    (i : Input.t) : Input.t :=
  Input.make (Input.triggerOnAllMovement i) (Input.cameraMovementMovesMouse i)
    (Some event)
    (js_add (js_div (js_div (stageX event) (dpr w)) (Stage.scaleX s))
       (prop cam "x"))
    (js_add (js_div (js_div (stageY event) (dpr w)) (Stage.scaleY s))
       (prop cam "y")).

(** The payload built from the closure variables. *)
Definition pick_of (native : NativeEvent) (i : Input.t) : Pick :=
  {| pick_event := native; pick_x := Input.x i; pick_y := Input.y i |}.

(** The listeners sit on the stage: they exist once [setupInput] has run and
    until [destroy] removes them, so they run with a stage at hand. *)
Definition mousedown (event : StageEvent) (h : Handler) : Handler * list action :=
  match input h, stage h with
  | Some i, Some s =>
      let i' := setXY s (camera h) event i in
      let h1 := set_input (Some i') h in
      (if Input.cameraMovementMovesMouse i'
       then set_moveMouse (Some event) h1 else h1,
       [Trigger "mousedown" (pick_of (nativeEvent event) i')])
  | _, _ => (h, [])
  end.

Definition mouseup (event : StageEvent) (h : Handler) : Handler * list action :=
  match input h, stage h with
  | Some i, Some s =>
      let i' := setXY s (camera h) event i in
      let h1 := set_input (Some i') h in
      (if Input.cameraMovementMovesMouse i' then set_moveMouse None h1 else h1,
       [Trigger "mouseup" (pick_of (nativeEvent event) i')])
  | _, _ => (h, [])
  end.

Definition mousemove (event : StageEvent) (h : Handler) : Handler * list action :=
  match input h, stage h with
  | Some i, Some s =>
      let i' := setXY s (camera h) event i in
      (set_input (Some i') h,
       if Input.triggerOnAllMovement i' || which (nativeEvent event)
          || touches (nativeEvent event)
       then [Trigger "mousemove" (pick_of (nativeEvent event) i')] else [])
  | _, _ => (h, [])
  end.

(** The callback that [mousedown] stores in [this.moveMouse]; [press] is the
    event that armed it. *)
Definition call_moveMouse (press : StageEvent) (h : Handler)
  : Handler * list action :=
  match input h, stage h with
  | Some i, Some s =>
      match Input.originalEvent i with
      | Some original =>
          let i' := setXY s (camera h) original i in
          (set_input (Some i') h,
           [Trigger "mousemove" (pick_of (nativeEvent press) i')])
      | None => (h, [TypeError])
      end
  | _, _ => (h, [TypeError])
  end.

(** Of the stage transform only the scale is kept, which is what the pointer
    translation reads back; the resizing of the canvas leaves no trace in
    what the handler reads. *)
Definition camera_update (cameraInfo : CameraInfo) (h : Handler)
  : Handler * list action :=
  let cam :=
    <["height" := viewportHeight cameraInfo]>
      (<["width" := viewportWidth cameraInfo]>
         (<["y" := viewportTop cameraInfo]>
            (<["x" := viewportLeft cameraInfo]> (camera h)))) in
  let h1 := set_camera cam h in
  match stage h1 with
  | Some s =>
      let s' :=
        Stage.set_scale (js_mul (info_scaleX cameraInfo) (dpr w))
          (js_mul (info_scaleY cameraInfo) (dpr w)) s in
      let h2 := set_stage (Some s') h1 in
      match moveMouse h2 with
      | Some press => call_moveMouse press h2
      | None => (h2, [])
      end
  | None => (h1, [TypeError])
  end.

(** [destroy]; a second call finds [this.owner.canvasParent] null. *)
Definition destroy (h : Handler) : Handler * list action :=
  match stage h with
  | Some _ => (set_stage None h, [RemoveCanvas])
  | None => (h, [TypeError])
  end.

(** The public method; [None] when [this.stage] is undefined (a TypeError). *)
Definition getWorldPointFromScreen (sp : Point) (h : Handler) : option Point :=
  match stage h with
  | Some s =>
      Some {| point_x :=
                js_add (js_div (js_mul (point_x sp) (dpr w)) (Stage.scaleX s))
                  (prop (camera h) "x");
              point_y :=
                js_add (js_div (js_mul (point_y sp) (dpr w)) (Stage.scaleY s))
                  (prop (camera h) "y") |}
  | None => None
  end.

End Pointer.

(** The conversion the Pointer Translator is specified with, per axis:
    [world = (stagePixel / devicePixelRatio) / stageScale + cameraOrigin]. *)
Definition translator_formula (stagePixel devicePixelRatio stageScale cameraOrigin : num)
  : num :=
  js_add (js_div (js_div stagePixel devicePixelRatio) stageScale) cameraOrigin.

(** ** The events a handler receives *)

Inductive event :=
| Load (self : nat) (components : list string)
| ChildEntityAdded
| PauseRender (resp : option num)
| UnpauseRender
| Tick (resp : Resp)
| CameraUpdate (cameraInfo : CameraInfo)
| HandleRenderAddition (addition : gmap string value)
| StageMouseDown (event : StageEvent)
| StageMouseUp (event : StageEvent)
| StageMouseMove (event : StageEvent)
| Destroy
(** game code changing the display list between two events *)
| DisplayListEdit (edit : Stage.t → Stage.t).

Section Events.

Variable w : Window.
Variable handle_render : gmap string value → Stage.t → Stage.t.

Definition deliver (e : event) (h : Handler) : Handler * list action :=
  match e with
  | Load self components => (load self components h, [])
  | ChildEntityAdded => child_entity_added h
  | PauseRender resp => (pause_render resp h, [])
  | UnpauseRender => (unpause_render h, [])
  | Tick resp => tick w handle_render resp h
  | CameraUpdate cameraInfo => camera_update w cameraInfo h
  | HandleRenderAddition addition => (handle_render_addition addition h, [])
  | StageMouseDown event => mousedown w event h
  | StageMouseUp event => mouseup w event h
  | StageMouseMove event => mousemove w event h
  | Destroy => destroy h
  | DisplayListEdit edit => (set_stage (edit <$> stage h) h, [])
  end.

Fixpoint run (es : list event) (h : Handler) : Handler * list action :=
  match es with
  | [] => (h, [])
  | e :: es' =>
      let '(h1, log1) := deliver e h in
      let '(h2, log2) := run es' h1 in
      (h2, (log1 ++ log2)%list)
  end.

(** *** Two handlers on one owner *)

(** [owner.triggerEvent('handle-render-addition', message)] reaches the
    listener of the other handler for every such action in [log]. *)
Fixpoint absorb (log : list action) (h : Handler) : Handler :=
  match log with
  | [] => h
  | TriggerEvent "handle-render-addition" message :: log' =>
      absorb log' (handle_render_addition message h)
  | _ :: log' => absorb log' h
  end.


(** The other order: the earlier-attached handler [a] first. *)
Definition owner_tick_attach_order (resp : Resp) (ab : Handler * Handler)
  : (Handler * Handler) * list action :=
  let '(a, b) := ab in
  let '(a1, log_a) := tick w handle_render resp a in
  let '(b1, log_b) := tick w handle_render resp (absorb log_a b) in
  ((absorb log_b a1, b1), (log_a ++ log_b)%list).

(** The 'handle-render' messages a log shows, in order. *)
Definition dispatched (log : list action) : list (gmap string value) :=
  omap (λ a, match a with
             | TriggerEventOnChildren "handle-render" m => Some m
             | _ => None
             end) log.

End Events.

(** ** Decidable equality of the data *)

#[global] Instance num_eq_dec : EqDecision num.
Proof. solve_decision. Defined.
#[global] Instance value_eq_dec : EqDecision value.
Proof. solve_decision. Defined.
#[global] Instance Resp_eq_dec : EqDecision Resp.
Proof. solve_decision. Defined.
#[global] Instance Rectangle_eq_dec : EqDecision Rectangle.t.
Proof. solve_decision. Defined.
#[global] Instance Child_eq_dec : EqDecision Child.t.
Proof. solve_decision. Defined.
#[global] Instance NativeEvent_eq_dec : EqDecision NativeEvent.
Proof. solve_decision. Defined.
#[global] Instance Pick_eq_dec : EqDecision Pick.
Proof. solve_decision. Defined.
#[global] Instance Point_eq_dec : EqDecision Point.
Proof. solve_decision. Defined.
#[global] Instance action_eq_dec : EqDecision action.
Proof. solve_decision. Defined.

(** ** Notions the properties are stated with *)

(** The stage as the children's handlers left it, when the cull pass starts. *)
Definition stage_after_dispatch
    (handle_render : gmap string value → Stage.t → Stage.t)
    (resp : Resp) (h : Handler) : option Stage.t :=
  stage (dispatch handle_render (prepare resp h)).1.

(** [a <= b] between two numbers; it holds of no other value. *)
Definition num_le (a b : num) : Prop :=
  match a, b with
  | Num p, Num q => p ≤ q
  | _, _ => False
  end.

(** The closed-interval overlap of the bounds and the camera rectangle, edge
    by edge. *)
Definition closed_overlap (cam : gmap string num) (b : Rectangle.t) : Prop :=
  num_le (prop cam "x") (js_add (Rectangle.x b) (Rectangle.width b))
  ∧ num_le (Rectangle.x b) (js_add (prop cam "x") (prop cam "width"))
  ∧ num_le (prop cam "y") (js_add (Rectangle.y b) (Rectangle.height b))
  ∧ num_le (Rectangle.y b) (js_add (prop cam "y") (prop cam "height")).

Definition is_camera_update (e : event) : bool :=
  match e with
  | CameraUpdate _ => true
  | _ => false
  end.

(** Children in ascending order of their depth key. *)
Definition ascending_z (l : list Child.t) : Prop :=
  StronglySorted (λ a b, Child.z a ≤ Child.z b) l.

(** ** Sample data *)

Definition int (z : Z) : num := Num (Q2Qc (inject_Z z)).

(** A page with a device pixel ratio of 2. *)
Definition retina : Window := {| devicePixelRatio := int 2; android4 := false |}.

(** Children whose 'handle-render' handlers leave the display list alone. *)
Definition still : gmap string value → Stage.t → Stage.t := λ _ s, s.

Definition click_only : Definition_ :=
  {| def_autoClear := false;
     acceptInput :=
       Some {| accept_touch := false; accept_click := true;
               accept_camera := false; accept_movement := false |} |}.

(** A handler as its constructor leaves it, on an owner with children. *)
Definition fresh (stage_id : nat) : Handler :=
  (constructor stage_id true click_only).1.

Definition viewport (left top width height : Z) (scale : num) : CameraInfo :=
  {| viewportLeft := int left; viewportTop := int top;
     viewportWidth := int width; viewportHeight := int height;
     info_scaleX := scale; info_scaleY := scale |}.

Definition sprite (name : string) (hidden visible : bool) (z : Z)
    (bounds : option Rectangle.t) : Child.t :=
  Child.make name hidden visible false (Q2Qc (inject_Z z)) bounds.

Definition box (x y width height : Z) : Rectangle.t :=
  Rectangle.make (int x) (int y) (int width) (int height).

(** A handler fresh from its constructor whose stage was given children. *)
Definition staged (stage_id : nat) (children : list Child.t) : Handler :=
  let h := fresh stage_id in
  set_stage (Stage.set_children children <$> stage h) h.

(** A handler with unit stage scale and the camera at the origin. *)
Definition at_origin (stage_id : nat) : Handler :=
  set_camera
    {[ "x" := int 0; "y" := int 0; "width" := int 100; "height" := int 100 ]}
    (fresh stage_id).

(** A press at device pixel (100, 50). *)
Definition press : StageEvent :=
  {| stageX := int 100; stageY := int 50;
     nativeEvent := {| native_id := 0; which := true; touches := false |} |}.

(** Two render handlers on one owner, after [load]: the earlier-attached one
    owns stage 1, the later-attached one stage 2. *)
Definition two_handlers : list string :=
  ["handler-render-createjs"; "handler-render-createjs"].


Definition secondary : Handler := load 0 two_handlers (fresh 1).

Definition primary : Handler := load 1 two_handlers (fresh 2).

(** A handler whose stage holds two sprites in depth order, the flag
    [reorder] set. *)
Definition layered : Handler :=
  set_stage
    (Some (Stage.make 1
             [sprite "back" false true 1 None; sprite "front" false true 2 None]
             true false (Num 1) (Num 1)))
    (fresh 1).

(** A handler set up for clicks with camera-coupled movement. *)
Definition following : Handler :=
  (constructor 1 true
     {| def_autoClear := false;
        acceptInput :=
          Some {| accept_touch := false; accept_click := true;
                  accept_camera := true; accept_movement := false |} |}).1.

(** The [visible] flags of the stage's children after a run of events. *)
Definition shown (w : Window)
    (handle_render : gmap string value → Stage.t → Stage.t)
    (es : list event) (h : Handler) : option (list bool) :=
  (λ s, Child.visible <$> Stage.children s) <$> stage (run w handle_render es h).1.

(** ** Notions for the further properties *)

(** What the cull pass leaves of a child: all but [visible] and [paused]. *)
Definition fixed_part (c : Child.t) : string * bool * Qc * option Rectangle.t :=
  (Child.name c, Child.hidden c, Child.z c, Child.bounds c).

(** The ticks of a run of elapsed times. *)
Definition ticks (ds : list Qc) : list event :=
  (λ d, Tick {| delta := Num d |}) <$> ds.

(** The owner's pointer notifications. *)
Definition is_pick (a : action) : bool :=
  match a with
  | Trigger _ _ => true
  | _ => false
  end.

(** The actions a handler takes through [this.stage] or [this.canvas]: the
    sort, the stage update and the reports around it, the canvas workaround,
    enabling touch, dropping the canvas, handing [this.stage] to a new child,
    and the pointer notifications of the stage's listeners.  A broadcast or
    an addition is not among them, though its message may hold a stage. *)
Definition through_stage (a : action) : bool :=
  match a with
  | TriggerEventOnChildren _ _ | TriggerEvent _ _ | HandleRenderLoad None
  | TypeError => false
  | _ => true
  end.

(** The pick that a stage event makes under the camera and the scale that
    a camera-update sets. *)
Definition pick_under (w : Window) (cameraInfo : CameraInfo)
    (native : NativeEvent) (event : StageEvent) : Pick :=
  {| pick_event := native;
     pick_x := translator_formula (stageX event) (dpr w)
                 (js_mul (info_scaleX cameraInfo) (dpr w))
                 (viewportLeft cameraInfo);
     pick_y := translator_formula (stageY event) (dpr w)
                 (js_mul (info_scaleY cameraInfo) (dpr w))
                 (viewportTop cameraInfo) |}.

(** * RandomSet

    [src/RandomSet.js]: a set that is pulled from at random, every member
    once before any repeats.  A value of [Math.random()] is a parameter of
    [get]; it lies in [0, 1). *)

Module RandomSet.

Section RandomSet.

Context {A : Type} `{EqDecision A}.

Record t := make { contents : list A; availableIndexes : list nat }.

(** [Array.prototype.indexOf]; [None] stands for [-1]. *)
Definition indexOf {B : Type} `{EqDecision B} (x : B) (l : list B) : option nat :=
  fst <$> list_find (λ y, y = x) l.

Definition refill (s : t) : t :=
  make (contents s) (availableIndexes s ++ seq 0 (length (contents s))).

(** The constructor; [None] is a call without contents. *)
Definition new (contents : option (list A)) : t :=
  refill (make (default [] contents) []).

Definition add (toAdd : A) (s : t) : t :=
  make (contents s ++ [toAdd])
    (availableIndexes s ++ [(length (contents s ++ [toAdd]) - 1)%nat]).

(** One turn of the loop of [remove]; [None] when [toRemove] is not found. *)
Definition remove_step (toRemove : A) (s : t) : option t :=
  match indexOf toRemove (contents s) with
  | Some index =>
      Some (make (delete index (contents s))
              match indexOf index (availableIndexes s) with
              | Some indexesIndex => delete indexesIndex (availableIndexes s)
              | None => availableIndexes s
              end)
  | None => None
  end.

(** [do ... while (index !== -1 && removeAll)]; every turn but the last
    shortens [contents], so [fuel] turns are enough when [fuel] exceeds its
    length. *)
Fixpoint remove_loop (fuel : nat) (toRemove : A) (removeAll : bool) (s : t) : t :=
  match fuel with
  | 0%nat => s
  | S fuel' =>
      match remove_step toRemove s with
      | Some s' => if removeAll then remove_loop fuel' toRemove removeAll s' else s'
      | None => s
      end
  end.

Definition remove (toRemove : A) (removeAll : bool) (s : t) : t :=
  remove_loop (S (length (contents s))) toRemove removeAll s.

(** [Math.floor(random * length)] *)
Definition pick (random : Qc) (length : nat) : nat :=
  Z.to_nat (Qfloor (random * inject_Z (Z.of_nat length))).

(** [get]: the member, or [None] for [undefined], and the set it leaves. *)
Definition get (random : Qc) (s : t) : option A * t :=
  let s1 :=
    if decide (length (availableIndexes s) = 0%nat) then refill s else s in
  let at_ := pick random (length (availableIndexes s1)) in
  let index := availableIndexes s1 !! at_ in
  (index ≫= (λ i, contents s1 !! i),
   make (contents s1) (delete at_ (availableIndexes s1))).

(** [getMultiple(numberToGet)], one value of [Math.random()] for each of
    the [numberToGet] calls of [get]. *)
Fixpoint getMultiple (randoms : list Qc) (s : t) : list (option A) * t :=
  match randoms with
  | [] => ([], s)
  | random :: randoms' =>
      let '(x, s1) := get random s in
      let '(xs, s2) := getMultiple randoms' s1 in
      (x :: xs, s2)
  end.

(** Every available index points into [contents]. *)
Definition in_range (s : t) : Prop :=
  Forall (λ i, (i < length (contents s))%nat) (availableIndexes s).

End RandomSet.

Arguments t : clear implicits.

End RandomSet.

(** A value that [Math.random()] can return. *)
Definition is_random (r : Qc) : Prop := 0 ≤ r ∧ r < 1.

(** * LogicCanvasButton

    [components/LogicCanvasButton]: press, release and cancel of an entity
    used as a button, its [disabled] and [highlighted] states and its
    position relative to the camera's viewport. *)

Module LogicCanvasButton.

(** The component's properties, as the entity's definition sets them.  The
    four distances are public properties with default [null]; [Undefined]
    stands for every value whose [typeof] is not 'number'. *)
Module Properties.
Record t := make {
  onPress : string;
  onRelease : string;
  onCancel : string;
  useOnce : bool;
  disabled : bool;
  bottom : num;
  left : num;
  right : num;
  top : num }.
End Properties.

(** [owner.state], the three keys this component sets. *)
Module State.
Record t := make { disabled : bool; down : bool; highlighted : bool }.

Definition set_disabled (v : bool) (s : t) : t :=
  make v (down s) (highlighted s).
Definition set_down (v : bool) (s : t) : t :=
  make (disabled s) v (highlighted s).
Definition set_highlighted (v : bool) (s : t) : t :=
  make (disabled s) (down s) v.
End State.

(** The owner as far as this component reads and writes it. *)
Module Owner.
Record t := make { state : State.t; buttonMode : bool; x : num; y : num }.

Definition set_state (v : State.t) (o : t) : t :=
  make v (buttonMode o) (x o) (y o).
Definition set_buttonMode (v : bool) (o : t) : t :=
  make (state o) v (x o) (y o).
Definition set_x (v : num) (o : t) : t :=
  make (state o) (buttonMode o) v (y o).
Definition set_y (v : num) (o : t) : t :=
  make (state o) (buttonMode o) (x o) v.
End Owner.

(** [camera.viewport] *)
Module AABB.
Record t := make { left : num; right : num; top : num; bottom : num }.
End AABB.

(** The component.  [state] tells whether [this.state] still refers to
    [owner.state] ([true]) or is [null] ([false], after [destroy]); [last] is
    [None] for [null]. *)
Record t := make {
  properties : Properties.t;
  owner : Owner.t;
  state : bool;
  cancelled : bool;
  usedPress : bool;
  usedRelease : bool;
  last : option bool }.

Definition set_owner (v : Owner.t) (b : t) : t :=
  make (properties b) v (state b) (cancelled b) (usedPress b) (usedRelease b)
    (last b).
Definition set_state (v : bool) (b : t) : t :=
  make (properties b) (owner b) v (cancelled b) (usedPress b) (usedRelease b)
    (last b).
Definition set_cancelled (v : bool) (b : t) : t :=
  make (properties b) (owner b) (state b) v (usedPress b) (usedRelease b)
    (last b).
Definition set_usedPress (v : bool) (b : t) : t :=
  make (properties b) (owner b) (state b) (cancelled b) v (usedRelease b)
    (last b).
Definition set_usedRelease (v : bool) (b : t) : t :=
  make (properties b) (owner b) (state b) (cancelled b) (usedPress b) v
    (last b).
Definition set_last (v : option bool) (b : t) : t :=
  make (properties b) (owner b) (state b) (cancelled b) (usedPress b)
    (usedRelease b) v.

(** [this.state.get(key)] and [this.state.set(key, value)] *)
Definition get {B : Type} (key : State.t → B) (b : t) : B :=
  key (Owner.state (owner b)).

Definition set (update : State.t → State.t) (b : t) : t :=
  set_owner (Owner.set_state (update (Owner.state (owner b))) (owner b)) b.

Inductive action :=
| Trigger (event : string)
| StopPropagation
| TypeError.

(** [typeof v === 'number'] *)
Definition is_number (v : num) : bool :=
  match v with
  | Undefined => false
  | _ => true
  end.

(** ToBoolean of a string *)
Definition nonempty (s : string) : bool := negb (String.eqb s "").

(** A handler that starts by reading [this.state]: on [null] the read throws
    before anything is changed. *)
Definition with_state (b : t) (body : t * list action) : t * list action :=
  if state b then body else (b, [TypeError]).

Definition constructor (p : Properties.t) (o : Owner.t) : t :=
  let state :=
    State.set_highlighted false
      (State.set_down false
         (State.set_disabled (Properties.disabled p) (Owner.state o))) in
  make p
    (Owner.set_buttonMode (negb (Properties.disabled p))
       (Owner.set_state state o))
    true false false false None.

Definition camera_update (vp : AABB.t) (b : t) : t :=
  let p := properties b in
  let o := owner b in
  let o1 :=
    if is_number (Properties.left p)
    then Owner.set_x (js_add (AABB.left vp) (Properties.left p)) o
    else if is_number (Properties.right p)
    then Owner.set_x (js_sub (AABB.right vp) (Properties.right p)) o
    else o in
  let o2 :=
    if is_number (Properties.top p)
    then Owner.set_y (js_add (AABB.top vp) (Properties.top p)) o1
    else if is_number (Properties.bottom p)
    then Owner.set_y (js_sub (AABB.bottom vp) (Properties.bottom p)) o1
    else o1 in
  set_owner o2 b.

Definition handle_logic (b : t) : t * list action :=
  with_state b
    (let eq := bool_decide (Properties.disabled (properties b)
                            = get State.disabled b) in
     (if bool_decide (last b ≠ Some eq) then set_last (Some eq) b else b, [])).

Definition mousedown (b : t) : t * list action :=
  with_state b
    (let p := properties b in
     let b1 := set (State.set_down true) b in
     if negb (get State.disabled b1)
        && negb (Properties.useOnce p && usedPress b1)
     then
       if nonempty (Properties.onPress p)
       then (set_usedPress true b1,
             [Trigger (Properties.onPress p); StopPropagation])
       else (b1, [StopPropagation])
     else (b1, [])).

Definition pressup (b : t) : t * list action :=
  with_state b
    (let p := properties b in
     let '(b1, log) :=
       if negb (get State.disabled b)
          && negb (Properties.useOnce p && usedRelease b)
       then
         if cancelled b
         then
           if nonempty (Properties.onCancel p)
           then (set_usedRelease true b,
                 [Trigger (Properties.onCancel p); StopPropagation])
           else (b, [StopPropagation])
         else
           if nonempty (Properties.onRelease p)
           then (set_usedRelease true b,
                 [Trigger (Properties.onRelease p); StopPropagation])
           else (b, [StopPropagation])
       else (b, []) in
     (set_cancelled false (set (State.set_down false) b1), log)).

Definition mouseover (b : t) : t * list action :=
  with_state b
    (if get State.down b then set_cancelled false b else b, []).

Definition mouseout (b : t) : t * list action :=
  with_state b
    (if get State.down b then set_cancelled true b else b, []).

Definition disable (b : t) : t * list action :=
  with_state b
    (let b1 := set (State.set_disabled true) b in
     (set_owner (Owner.set_buttonMode false (owner b1)) b1, [])).

Definition enable (b : t) : t * list action :=
  with_state b
    (let b1 := set (State.set_disabled false) b in
     (set_owner (Owner.set_buttonMode true (owner b1)) b1, [])).

Definition toggle_disabled (b : t) : t * list action :=
  with_state b
    (let value := get State.disabled b in
     let b1 := set_owner (Owner.set_buttonMode value (owner b)) b in
     (set (State.set_disabled (negb value)) b1, [])).

Definition highlight (b : t) : t * list action :=
  with_state b (set (State.set_highlighted true) b, []).

Definition unhighlight (b : t) : t * list action :=
  with_state b (set (State.set_highlighted false) b, []).

Definition toggle_highlight (b : t) : t * list action :=
  with_state b
    (set (State.set_highlighted (negb (get State.highlighted b))) b, []).

Definition destroy (b : t) : t := set_state false b.

(** The events the component listens to, and [destroy]. *)
Inductive event :=
| CameraUpdate (viewport : AABB.t)
| HandleLogic
| Mousedown
| Pressup
| Mouseover
| Mouseout
| Disable
| Enable
| ToggleDisabled
| Highlight
| Unhighlight
| ToggleHighlight
| Destroy.

Definition deliver (e : event) (b : t) : t * list action :=
  match e with
  | CameraUpdate viewport => (camera_update viewport b, [])
  | HandleLogic => handle_logic b
  | Mousedown => mousedown b
  | Pressup => pressup b
  | Mouseover => mouseover b
  | Mouseout => mouseout b
  | Disable => disable b
  | Enable => enable b
  | ToggleDisabled => toggle_disabled b
  | Highlight => highlight b
  | Unhighlight => unhighlight b
  | ToggleHighlight => toggle_highlight b
  | Destroy => (destroy b, [])
  end.

Fixpoint run (es : list event) (b : t) : t * list action :=
  match es with
  | [] => (b, [])
  | e :: es' =>
      let '(b1, log1) := deliver e b in
      let '(b2, log2) := run es' b1 in
      (b2, (log1 ++ log2)%list)
  end.

Definition is_trigger (a : action) : bool :=
  match a with
  | Trigger _ => true
  | _ => false
  end.

(** The pointer leaving and entering the button. *)
Definition is_move (e : event) : bool :=
  match e with
  | Mouseover | Mouseout => true
  | _ => false
  end.

Definition is_destroy (e : event) : bool :=
  match e with
  | Destroy => true
  | _ => false
  end.

(** The events that can lift the [disabled] state. *)
Definition enables (e : event) : bool :=
  match e with
  | Enable | ToggleDisabled => true
  | _ => false
  end.

(** What a release on a button that reacts sends: the cancel event when the
    press was cancelled, the release event otherwise, if one is set. *)
Definition release_log (b : t) : list action :=
  let e := if cancelled b
           then Properties.onCancel (properties b)
           else Properties.onRelease (properties b) in
  (if nonempty e then [Trigger e] else []) ++ [StopPropagation].

End LogicCanvasButton.

(** * AudioVO

    [src/components/AudioVO.js]: the events that accompany a voice-over, kept
    in a queue and triggered on the owner as the playback reaches their
    times.  The elapsed time that [player.getElapsed()] reports is a
    parameter of the functions that read it. *)

Module AudioVO.

(** The message of an event: [undefined], [null] or a text. *)
Inductive message :=
| NoMessage
| Null
| Message (m : string).

(** [m || null] *)
Definition message_or_null (m : message) : message :=
  match m with
  | Message s => if String.eqb s "" then Null else m
  | _ => Null
  end.

(** An entry of an [events] array of a sound definition. *)
Module Definition_.
Record t := make { event : string; time : num; message : message }.
End Definition_.

(** An event of the queue.  [addEvents] and [offsetEvents] build it with the
    keys 'event', 'time' and 'message'; [interruptable] is a key that
    [checkTimeEvents] reads and that reads [undefined] on what they build. *)
Module Event.
Record t := make {
  event : string;
  time : num;
  message : message;
  interruptable : bool }.
End Event.

Definition sortByTime (a b : Event.t) : num :=
  js_sub (Event.time a) (Event.time b).

(** [Array.prototype.sort] as ECMAScript specifies it (stable, a comparison
    that yields NaN counts as 0): an element moves behind exactly those it
    compares greater than. *)
Fixpoint array_insert (cmp : Event.t → Event.t → num) (e : Event.t)
    (l : list Event.t) : list Event.t :=
  match l with
  | [] => [e]
  | d :: l' =>
      if js_gt (cmp e d) (Num 0) then d :: array_insert cmp e l'
      else e :: d :: l'
  end.

Fixpoint array_sort (cmp : Event.t → Event.t → num) (l : list Event.t)
  : list Event.t :=
  match l with
  | [] => []
  | e :: l' => array_insert cmp e (array_sort cmp l')
  end.

Definition added (d : Definition_.t) : Event.t :=
  Event.make (Definition_.event d)
    (js_or (Definition_.time d) (Num 0))
    (Definition_.message d)
    false.

Definition addEvents (fromList : list Definition_.t) (toList : list Event.t)
  : list Event.t :=
  let pushed := toList ++ (added <$> fromList) in
  match fromList with
  | [] => pushed
  | _ => array_sort sortByTime pushed
  end.

Definition shifted (offset : num) (d : Definition_.t) : Event.t :=
  Event.make (Definition_.event d)
    (js_add (js_or (Definition_.time d) (Num 0)) offset)
    (message_or_null (Definition_.message d))
    false.

(** [offsetEvents(fromList, toList, player)], with [elapsed] for
    [player.getElapsed()]. *)
Definition offsetEvents (fromList : list Definition_.t)
    (toList : list Event.t) (elapsed : num) : list Event.t :=
  let pushed := toList ++ (shifted elapsed <$> fromList) in
  match fromList with
  | [] => pushed
  | _ => array_sort sortByTime pushed
  end.

(** The component; [eventList] is [None] for [null]. *)
Record t := make {
  eventList : option (list Event.t);
  playingAudio : bool;
  paused : bool }.

Definition set_eventList (v : option (list Event.t)) (c : t) : t :=
  make v (playingAudio c) (paused c).
Definition set_playingAudio (v : bool) (c : t) : t :=
  make (eventList c) v (paused c).

Inductive action :=
| Trigger (event : string) (message : message)
| TriggerEvent (event : string)
| UnloadSound
| Stop.

(** [time <= currentTime], where [currentTime] is [Infinity] when the
    playback has finished and the elapsed time otherwise: every number is at
    most [Infinity], and nothing else is. *)
Definition due (finished : bool) (elapsed : num) (time : num) : bool :=
  if finished
  then match time with Num _ => true | _ => false end
  else js_le time elapsed.

(** [!finished || completed || !event.interruptable] *)
Definition triggers (finished completed : bool) (event : Event.t) : bool :=
  negb finished || completed || negb (Event.interruptable event).

Definition trigger (event : Event.t) : action :=
  Trigger (Event.event event) (Event.message event).

(** The loop of [checkTimeEvents]: what it leaves in the queue and what it
    triggers. *)
Fixpoint shift_due (finished completed : bool) (elapsed : num)
    (events : list Event.t) : list Event.t * list action :=
  match events with
  | [] => ([], [])
  | event :: rest =>
      if due finished elapsed (Event.time event)
      then
        let '(rest', log) := shift_due finished completed elapsed rest in
        (rest',
         if triggers finished completed event then trigger event :: log
         else log)
      else (events, [])
  end.

Definition checkTimeEvents (finished completed : bool) (elapsed : num) (c : t)
  : t * list action :=
  match eventList c with
  | Some events =>
      let '(rest', log) := shift_due finished completed elapsed events in
      (set_eventList (Some rest') c, log)
  | None => (c, [])
  end.

Definition initialize : t := make (Some []) false false.

(** 'handle-render'; [checkTimeEvents(false)] leaves [completed]
    undefined. *)
Definition handle_render (elapsed : num) (c : t) : t * list action :=
  if paused c then (c, []) else checkTimeEvents false false elapsed c.

(** The callback that the player calls at the end of a sequence
    ([completed]) or at its interruption; [destroyed] is
    [owner.destroyed]. *)
Definition onComplete (completed : bool) (destroyed : bool) (elapsed : num)
    (c : t) : t * list action :=
  let c1 := set_playingAudio false c in
  if destroyed then (c1, [UnloadSound])
  else
    let '(c2, log) := checkTimeEvents true completed elapsed c1 in
    (c2, log ++ [UnloadSound; TriggerEvent "sequence-complete"]).

Definition stop_audio (c : t) : t * list action := (c, [Stop]).

Definition destroy (c : t) : t * list action :=
  (set_eventList None c, if playingAudio c then [Stop] else []).

(** A sequence of 'handle-render' events, each with the elapsed time that
    the player reports at that moment. *)
Fixpoint renders (elapsed : list num) (c : t) : t * list action :=
  match elapsed with
  | [] => (c, [])
  | t :: elapsed' =>
      let '(c1, log1) := handle_render t c in
      let '(c2, log2) := renders elapsed' c1 in
      (c2, log1 ++ log2)
  end.

(** The time of every event is a number. *)
Definition timed (events : list Event.t) : Prop :=
  Forall (λ e, ∃ q, Event.time e = Num q) events.

(** Events in ascending order of their times. *)
Definition ascending (events : list Event.t) : Prop :=
  StronglySorted (λ a b, num_le (Event.time a) (Event.time b)) events.

End AudioVO.

#[global] Instance vo_message_eq_dec : EqDecision AudioVO.message.
Proof. solve_decision. Defined.
#[global] Instance vo_event_eq_dec : EqDecision AudioVO.Event.t.
Proof. solve_decision. Defined.

(** A use-once button that stays 10 units from the left and 20 from the top
    of the viewport. *)
Definition play_button : LogicCanvasButton.Properties.t :=
  LogicCanvasButton.Properties.make "play" "played" "play-cancelled" true false
    Undefined (int 10) Undefined (int 20).

Definition plain_owner : LogicCanvasButton.Owner.t :=
  LogicCanvasButton.Owner.make
    (LogicCanvasButton.State.make false false false) false (int 0) (int 0).

Definition is_camera (e : LogicCanvasButton.event) : bool :=
  match e with
  | LogicCanvasButton.CameraUpdate _ => true
  | _ => false
  end.

(** The events of a voice-over, one of them without a time. *)
Definition voice_events : list AudioVO.Definition_.t :=
  [AudioVO.Definition_.make "smile" (int 300) AudioVO.NoMessage;
   AudioVO.Definition_.make "wave" Undefined (AudioVO.Message "hello");
   AudioVO.Definition_.make "blink" (int 120) AudioVO.NoMessage].

(** A component that plays with the queue that [addEvents] makes of
    them. *)
Definition speaking : AudioVO.t :=
  AudioVO.make (Some (AudioVO.addEvents voice_events [])) true false.

(** * Properties *)

(** Closed statements about sample data are settled by evaluation. *)
Ltac evaluate :=
  match goal with
  | |- ?P => apply (@bool_decide_unpack P _); vm_compute; exact I
  end.

(** ** Numbers *)

Lemma Qc_leb_le (a b : Qc) : Qc_leb a b = true ↔ a ≤ b.
Proof. unfold Qc_leb, Qcle. apply Qle_bool_iff. Qed.

Lemma Qc_ltb_lt (a b : Qc) : Qc_ltb a b = true ↔ a < b.
Proof.
  unfold Qc_ltb. rewrite negb_true_iff, <- not_true_iff_false.
  fold (Qc_leb b a). rewrite Qc_leb_le. split.
  - apply Qcnot_le_lt.
  - apply Qclt_not_le.
Qed.

Lemma Qc_eqb_eq (a b : Qc) : Qc_eqb a b = true ↔ a = b.
Proof.
  unfold Qc_eqb. rewrite Qeq_bool_iff. split.
  - apply Qc_is_canon.
  - by intros ->.
Qed.

Lemma Qc_ltb_irrefl (a : Qc) : Qc_ltb a a = false.
Proof.
  apply not_true_iff_false. rewrite Qc_ltb_lt.
  intros H. by apply Qclt_not_eq in H.
Qed.

Lemma js_div_one (a : num) : js_div a (Num 1) = js_mul a (Num 1).
Proof.
  by destruct a.
Qed.

(** ** Objects walked property by property *)

Lemma copy_properties_union (src dst : gmap string value) :
  copy_properties src dst = src ∪ dst.
Proof.
  unfold copy_properties.
  apply (map_fold_weak_ind (λ r m, r = m ∪ dst)).
  - by rewrite (left_id_L ∅ (∪)).
  - intros i v m r _ ->. by rewrite insert_union_l.
Qed.

Lemma delete_properties_difference (src dst : gmap string value) :
  delete_properties src dst = dst ∖ src.
Proof.
  unfold delete_properties.
  apply (map_fold_weak_ind (λ r m, r = dst ∖ m)).
  - by rewrite map_difference_empty.
  - intros i v m r _ ->. apply map_eq. intros j.
    rewrite lookup_delete, !lookup_difference, lookup_insert.
    repeat case_decide; by simplify_eq.
Qed.

Lemma delete_properties_self (m : gmap string value) : delete_properties m m = ∅.
Proof. rewrite delete_properties_difference. apply map_difference_diag. Qed.

(** ** The cull loop visits every child once *)

Lemma cull_loop_take cam p (n : nat) (cs : list Child.t) :
  (n ≤ length cs)%nat →
  cull_loop cam p n cs = (cull_child cam p <$> take n cs) ++ drop n cs.
Proof.
  revert cs. induction n as [|x IH]; intros cs Hn; [done|].
  destruct (lookup_lt_is_Some_2 cs x) as [c Hc]; [lia|].
  simpl. rewrite Hc, IH by (rewrite length_insert; lia).
  rewrite take_insert_ge, drop_insert_ge by lia.
  rewrite (take_S_r _ _ _ Hc), (drop_S _ _ _ Hc), Nat.sub_diag, fmap_app.
  by rewrite <- (assoc_L (++)).
Qed.

Lemma cull_loop_fmap cam p (cs : list Child.t) :
  cull_loop cam p (length cs) cs = cull_child cam p <$> cs.
Proof.
  rewrite cull_loop_take by done.
  by rewrite firstn_all, drop_all, (right_id_L [] (++)).
Qed.

(** ** Sorting by depth key *)

Lemma sort_positive (c d : Child.t) :
  Qc_ltb 0 (sort c d) = true ↔ Child.z d < Child.z c.
Proof.
  unfold sort. rewrite Qc_ltb_lt. symmetry. apply Qclt_minus_iff.
Qed.

Lemma array_insert_Permutation (c : Child.t) (l : list Child.t) :
  array_insert sort c l ≡ₚ c :: l.
Proof.
  induction l as [|d l IH]; simpl; [done|].
  destruct (Qc_ltb 0 (sort c d)); [|done].
  rewrite IH. apply Permutation_swap.
Qed.

Lemma array_sort_Permutation (l : list Child.t) : array_sort sort l ≡ₚ l.
Proof.
  induction l as [|c l IH]; simpl; [done|].
  by rewrite array_insert_Permutation, IH.
Qed.

Lemma array_insert_ascending (c : Child.t) (l : list Child.t) :
  ascending_z l → ascending_z (array_insert sort c l).
Proof.
  unfold ascending_z. induction 1 as [|d l Hl IH Hd]; simpl.
  - repeat constructor.
  - destruct (Qc_ltb 0 (sort c d)) eqn:Hcd.
    + apply sort_positive in Hcd. constructor; [done|].
      rewrite array_insert_Permutation. constructor; [|done].
      by apply Qclt_le_weak.
    + assert (Child.z c ≤ Child.z d) as Hle.
      { apply Qcnot_lt_le. intros Hlt. apply sort_positive in Hlt. congruence. }
      constructor; [by constructor|]. constructor; [done|].
      eapply Forall_impl; [exact Hd|]. intros e He. simpl in He.
      by eapply Qcle_trans.
Qed.

Lemma array_sort_ascending (l : list Child.t) : ascending_z (array_sort sort l).
Proof.
  induction l as [|c l IH]; simpl.
  - constructor.
  - by apply array_insert_ascending.
Qed.

(** Stability: the children of any one depth keep their order. *)
Lemma array_insert_stable (k : Qc) (c : Child.t) (l : list Child.t) :
  filter (λ e, Child.z e = k) (array_insert sort c l)
  = filter (λ e, Child.z e = k) (c :: l).
Proof.
  induction l as [|d l IH]; simpl; [done|].
  destruct (Qc_ltb 0 (sort c d)) eqn:Hcd; [|done].
  apply sort_positive in Hcd.
  rewrite (filter_cons _ d), IH, !filter_cons.
  repeat case_decide; try done.
  subst k. exfalso. apply Qclt_not_eq in Hcd. congruence.
Qed.

Lemma array_sort_stable (k : Qc) (l : list Child.t) :
  filter (λ e, Child.z e = k) (array_sort sort l)
  = filter (λ e, Child.z e = k) l.
Proof.
  induction l as [|c l IH]; simpl; [done|].
  by rewrite array_insert_stable, !filter_cons, IH.
Qed.

(** ** The tick *)

Section TickProperties.

Variable w : Window.
Variable handle_render : gmap string value → Stage.t → Stage.t.

Lemma dispatch_paused (h : Handler) :
  paused (dispatch handle_render h).1 = paused h.
Proof.
  unfold dispatch.
  destruct (handleChildren h), (triggerEventOnChildren h), (extraContent h); done.
Qed.

Lemma dispatch_camera (h : Handler) :
  camera (dispatch handle_render h).1 = camera h.
Proof.
  unfold dispatch.
  destruct (handleChildren h), (triggerEventOnChildren h), (extraContent h); done.
Qed.

Lemma dispatch_stage (h : Handler) :
  stage (dispatch handle_render h).1
  = if handleChildren h && triggerEventOnChildren h
    then handle_render
           (match extraContent h with
            | Some extra => extra ∪ renderMessage h
            | None => renderMessage h
            end) <$> stage h
    else stage h.
Proof.
  unfold dispatch.
  destruct (handleChildren h), (triggerEventOnChildren h), (extraContent h);
    simpl; by rewrite ?copy_properties_union.
Qed.

Lemma dispatch_stage_None (h : Handler) :
  stage h = None → stage (dispatch handle_render h).1 = None.
Proof.
  intros Hs. rewrite dispatch_stage, Hs. by destruct (_ && _).
Qed.

(** What the dispatch sends out: one broadcast, one addition, or nothing. *)
Lemma dispatch_log (h : Handler) :
  (dispatch handle_render h).2
  = if handleChildren h then
      if triggerEventOnChildren h
      then [TriggerEventOnChildren "handle-render"
              (match extraContent h with
               | Some extra => extra ∪ renderMessage h
               | None => renderMessage h
               end)]
      else []
    else [TriggerEvent "handle-render-addition" (renderMessage h)].
Proof.
  unfold dispatch.
  destruct (handleChildren h), (triggerEventOnChildren h), (extraContent h);
    simpl; by rewrite ?copy_properties_union.
Qed.

Lemma tick_without_stage (resp : Resp) (h : Handler) :
  stage h = None →
  tick w handle_render resp h = dispatch handle_render (prepare resp h).
Proof.
  intros Hs. unfold tick.
  destruct (dispatch handle_render (prepare resp h)) as [h3 sent] eqn:Hd.
  assert (stage h3 = None) as ->; [|done].
  change h3 with (h3, sent).1. rewrite <- Hd. by apply dispatch_stage_None.
Qed.

(** With a stage, the tick culls every child, sorts when asked to, and draws. *)
Lemma tick_with_stage (resp : Resp) (h : Handler) (s : Stage.t) :
  stage_after_dispatch handle_render resp h = Some s →
  let culled :=
    cull_child (camera h) (countdown (paused h) (delta resp))
      <$> Stage.children s in
  ∃ s',
    stage (tick w handle_render resp h).1 = Some s'
    ∧ Stage.children s'
      = (if Stage.reorder s then array_sort sort culled else culled)
    ∧ Stage.reorder s' = false
    ∧ (tick w handle_render resp h).2
      = (dispatch handle_render (prepare resp h)).2
          ++ (if Stage.reorder s then [SortChildren] else [])
          ++ [TimeElapsed "Render-Prep"; StageUpdate resp]
          ++ (if android4 w && Stage.autoClear s
              then [CanvasOpacity; SetTimeout] else [])
          ++ [TimeElapsed "Render"].
Proof.
  intros Hs culled. subst culled. unfold stage_after_dispatch, tick in *.
  pose proof (dispatch_paused (prepare resp h)) as Hp.
  pose proof (dispatch_camera (prepare resp h)) as Hc.
  destruct (dispatch handle_render (prepare resp h)) as [h3 sent].
  simpl in Hs, Hp, Hc. rewrite Hs. unfold render.
  rewrite cull_loop_fmap, Hp, Hc. simpl.
  destruct (Stage.reorder s) eqn:Hr; simpl; eexists; (split; [done|]);
    simpl; by rewrite ?Hr.
Qed.

End TickProperties.

(** ** A tick without a stage *)

Section WithoutStage.

Variable w : Window.
Variable handle_render : gmap string value → Stage.t → Stage.t.

Lemma destroy_stage (h : Handler) : stage (destroy h).1 = None.
Proof. unfold destroy. by destruct (stage h) eqn:Hs. Qed.

Lemma deliver_stage_None (e : event) (h : Handler) :
  stage h = None → stage (deliver w handle_render e h).1 = None.
Proof.
  intros Hs. destruct e; simpl.
  - unfold load. by case_bool_decide.
  - done.
  - unfold pause_render. destruct resp as [t|]; [destruct (truthy t)|]; done.
  - done.
  - rewrite tick_without_stage by done. by apply dispatch_stage_None.
  - unfold camera_update. simpl. by rewrite Hs.
  - unfold handle_render_addition. by destruct (additionListener h).
  - unfold mousedown. rewrite Hs. by destruct (input h).
  - unfold mouseup. rewrite Hs. by destruct (input h).
  - unfold mousemove. rewrite Hs. by destruct (input h).
  - apply destroy_stage.
  - by rewrite Hs.
Qed.

Lemma run_stage_None (es : list event) (h : Handler) :
  stage h = None → stage (run w handle_render es h).1 = None.
Proof.
  revert h. induction es as [|e es IH]; intros h Hs; simpl; [done|].
  pose proof (deliver_stage_None e h Hs) as He.
  destruct (deliver w handle_render e h) as [h1 log1].
  specialize (IH h1 He).
  by destruct (run w handle_render es h1) as [h2 log2].
Qed.

Lemma destroyed_stage (es : list event) (h : Handler) :
  stage (run w handle_render (Destroy :: es) h).1 = None.
Proof.
  simpl. pose proof (destroy_stage h) as Hd.
  destruct (destroy h) as [h1 log1].
  pose proof (run_stage_None es h1 Hd) as Hr.
  by destruct (run w handle_render es h1) as [h2 log2].
Qed.

(** C3 (as amended): a tick that reaches a handler with no stage, be it after
    [destroy] or not, leaves the stage absent and does nothing that needs the
    stage: no sort, no stage update, no telemetry report, no canvas
    workaround.  The dispatch is not behind the test of the stage: a primary
    handler still broadcasts 'handle-render' and a secondary one still
    triggers 'handle-render-addition'. *)
Theorem tick_without_stage_only_dispatches (resp : Resp) (h : Handler) :
  (stage h = None
   ∨ ∃ es h0, h = (run w handle_render (Destroy :: es) h0).1) →
  stage (tick w handle_render resp h).1 = None
  ∧ (tick w handle_render resp h).2
    = (let message := <["delta" := VNum (delta resp)]> (renderMessage h) in
       if handleChildren h then
         if triggerEventOnChildren h
         then [TriggerEventOnChildren "handle-render"
                 (match extraContent h with
                  | Some extra => extra ∪ message
                  | None => message
                  end)]
         else []
       else [TriggerEvent "handle-render-addition" message])
  ∧ (SortChildren ∉ (tick w handle_render resp h).2)
  ∧ (∀ r, StageUpdate r ∉ (tick w handle_render resp h).2)
  ∧ (∀ phase, TimeElapsed phase ∉ (tick w handle_render resp h).2)
  ∧ (CanvasOpacity ∉ (tick w handle_render resp h).2)
  ∧ (SetTimeout ∉ (tick w handle_render resp h).2).
Proof.
  intros Hh.
  assert (stage h = None) as Hs.
  { destruct Hh as [?|(es & h0 & ->)]; [done|]. apply destroyed_stage. }
  rewrite tick_without_stage by done.
  split; [by apply dispatch_stage_None|].
  rewrite dispatch_log. simpl.
  split; [done|].
  destruct (handleChildren h), (triggerEventOnChildren h);
    repeat split; repeat intros ?;
    match goal with
    | H : _ ∈ [] |- _ => by apply elem_of_nil in H
    | H : _ ∈ [_] |- _ => by apply list_elem_of_singleton in H
    end.
Qed.

End WithoutStage.

(** C3, the claim as stated fails: the tick of a destroyed primary handler
    still broadcasts 'handle-render' to the children. *)
Lemma tick_after_destroy_still_broadcasts :
  ¬ (∀ w handle_render resp h,
       stage h = None → (tick w handle_render resp h).2 = []).
Proof.
  intros H.
  specialize (H retina still {| delta := int 16 |} (destroy (fresh 1)).1 eq_refl).
  vm_compute in H. discriminate H.
Qed.

Lemma tick_without_stage_only_dispatches_witness :
  stage (destroy (fresh 1)).1 = None
  ∧ stage (tick retina still {| delta := int 16 |} (destroy (fresh 1)).1).1 = None.
Proof.
  split; [reflexivity|].
  apply (tick_without_stage_only_dispatches retina still {| delta := int 16 |}
           (destroy (fresh 1)).1).
  left. reflexivity.
Defined.

(** ** The cull pass *)

Lemma js_le_num_le (a b : num) : js_le a b = true ↔ num_le a b.
Proof.
  destruct a as [| |p], b as [| |q]; simpl; try (split; [discriminate|done]).
  apply Qc_leb_le.
Qed.

Lemma in_camera_closed_overlap (cam : gmap string num) (b : Rectangle.t) :
  in_camera cam b = true ↔ closed_overlap cam b.
Proof.
  unfold in_camera, closed_overlap, js_ge.
  rewrite !andb_true_iff, !js_le_num_le. tauto.
Qed.

Lemma in_camera_no_origin (cam : gmap string num) (b : Rectangle.t) :
  prop cam "x" = Undefined → in_camera cam b = false.
Proof.
  unfold in_camera, js_ge. intros ->.
  by destruct (js_add (Rectangle.x b) (Rectangle.width b)).
Qed.

Lemma cull_child_name cam p child :
  Child.name (cull_child cam p child) = Child.name child.
Proof.
  unfold cull_child, cull_paused, cull_visible.
  repeat (case_match; simpl); done.
Qed.

Lemma cull_child_hidden cam p child :
  Child.hidden (cull_child cam p child) = Child.hidden child.
Proof.
  unfold cull_child, cull_paused, cull_visible.
  repeat (case_match; simpl); done.
Qed.

Lemma cull_child_bounds cam p child :
  Child.bounds (cull_child cam p child) = Child.bounds child.
Proof.
  unfold cull_child, cull_paused, cull_visible.
  repeat (case_match; simpl); done.
Qed.

Lemma cull_child_z cam p child :
  Child.z (cull_child cam p child) = Child.z child.
Proof.
  unfold cull_child, cull_paused, cull_visible.
  repeat (case_match; simpl); done.
Qed.

Lemma cull_paused_visible p child :
  Child.visible (cull_paused p child) = Child.visible child.
Proof. unfold cull_paused. repeat (case_match; simpl); done. Qed.

(** A force-hidden child ends invisible. *)
Lemma cull_child_visible_hidden cam p child :
  Child.hidden child = true → Child.visible (cull_child cam p child) = false.
Proof.
  intros Hh. unfold cull_child. rewrite cull_paused_visible.
  unfold cull_visible. rewrite Hh. by destruct (Child.visible child) eqn:Hv.
Qed.

(** Any other child that is not entity-managed is shown exactly when it has
    no bounds or its bounds pass the test against the camera. *)
Lemma cull_child_visible_bounds cam p child :
  Child.hidden child = false →
  Child.name child ≠ "entity-managed" →
  Child.visible (cull_child cam p child)
  = match Child.bounds child with
    | None => true
    | Some b => in_camera cam b
    end.
Proof.
  intros Hh Hn. unfold cull_child. rewrite cull_paused_visible.
  unfold cull_visible. rewrite Hh.
  apply String.eqb_neq in Hn. rewrite Hn. simpl.
  destruct (Child.bounds child) as [b|]; [destruct (in_camera cam b)|];
    by destruct (Child.visible child) eqn:Hv.
Qed.

(** An entity-managed child that is not force-hidden keeps its flag. *)
Lemma cull_child_visible_managed cam p child :
  Child.hidden child = false →
  Child.name child = "entity-managed" →
  Child.visible (cull_child cam p child) = Child.visible child.
Proof.
  intros Hh Hn. unfold cull_child. rewrite cull_paused_visible.
  unfold cull_visible. by rewrite Hh, Hn.
Qed.

Section CullAndSort.

Variable w : Window.
Variable handle_render : gmap string value → Stage.t → Stage.t.

(** C5: on a tick with the stage present, every child of the stage is put
    through the cull pass.  A hidden child ends invisible; any other child
    whose name is not 'entity-managed' ends visible exactly when it has no
    transformed bounds or its bounds overlap the camera rectangle, all four
    edges taken as closed intervals.  With the camera at (0,0,100,100) the
    child with bounds (150,0,10,10) ends invisible, and visible once the
    camera has moved to x = 60. *)
Theorem cull_pass_sets_visibility :
  (∀ resp h s,
     stage_after_dispatch handle_render resp h = Some s →
     let cull := cull_child (camera h) (countdown (paused h) (delta resp)) in
     ∃ s',
       stage (tick w handle_render resp h).1 = Some s'
       ∧ Stage.children s' ≡ₚ cull <$> Stage.children s
       ∧ ∀ child,
           child ∈ Stage.children s →
           (Child.hidden child = true → Child.visible (cull child) = false)
           ∧ (Child.hidden child = false →
              Child.name child ≠ "entity-managed" →
              (Child.visible (cull child) = true
               ↔ Child.bounds child = None
                 ∨ ∃ b, Child.bounds child = Some b
                        ∧ closed_overlap (camera h) b)))
  ∧ (∀ visible0,
       let child := sprite "sprite" false visible0 0 (Some (box 150 0 10 10)) in
       shown retina still
         [DisplayListEdit (Stage.set_children [child]);
          CameraUpdate (viewport 0 0 100 100 (int 1));
          Tick {| delta := int 16 |}] (fresh 1) = Some [false]
       ∧ shown retina still
           [DisplayListEdit (Stage.set_children [child]);
            CameraUpdate (viewport 0 0 100 100 (int 1));
            Tick {| delta := int 16 |};
            CameraUpdate (viewport 60 0 100 100 (int 1));
            Tick {| delta := int 16 |}] (fresh 1) = Some [true]).
Proof.
  split.
  - intros resp h s Hs cull.
    destruct (tick_with_stage w handle_render resp h s Hs)
      as (s' & Hs' & Hcs & _).
    exists s'. split; [done|]. split.
    { rewrite Hcs. destruct (Stage.reorder s); [|done].
      apply array_sort_Permutation. }
    intros child _. split.
    + apply cull_child_visible_hidden.
    + intros Hh Hn. unfold cull.
      rewrite cull_child_visible_bounds by done.
      destruct (Child.bounds child) as [b|].
      * rewrite in_camera_closed_overlap. split.
        -- intros Hb. right. by exists b.
        -- intros [Hb|(b' & Hb & Ho)]; [done|]. by injection Hb as ->.
      * split; [by left|done].
  - intros [|]; split; reflexivity.
Qed.

(** C6: the children are sorted on a tick exactly when the [reorder] flag is
    set when the cull pass is over; the flag is clear after the tick; the sort
    yields the same children in ascending order of [z], those of equal [z] in
    the order they had. *)
Theorem resort_iff_reorder_flag (resp : Resp) (h : Handler) (s : Stage.t) :
  stage_after_dispatch handle_render resp h = Some s →
  let culled :=
    cull_child (camera h) (countdown (paused h) (delta resp))
      <$> Stage.children s in
  (SortChildren ∈ (tick w handle_render resp h).2 ↔ Stage.reorder s = true)
  ∧ ∃ s',
      stage (tick w handle_render resp h).1 = Some s'
      ∧ Stage.reorder s' = false
      ∧ (Stage.reorder s = false → Stage.children s' = culled)
      ∧ (Stage.reorder s = true →
         Stage.children s' = array_sort sort culled
         ∧ Stage.children s' ≡ₚ culled
         ∧ ascending_z (Stage.children s')
         ∧ ∀ k, filter (λ c, Child.z c = k) (Stage.children s')
                = filter (λ c, Child.z c = k) culled).
Proof.
  intros Hs culled.
  destruct (tick_with_stage w handle_render resp h s Hs)
    as (s' & Hs' & Hcs & Hr & Hlog).
  fold culled in Hcs. split.
  - rewrite Hlog.
    assert (SortChildren ∉ (dispatch handle_render (prepare resp h)).2) as Hsent.
    { rewrite dispatch_log. intros Hin.
      destruct (handleChildren (prepare resp h)),
        (triggerEventOnChildren (prepare resp h));
        repeat (apply elem_of_cons in Hin as [Hin|Hin]; [discriminate Hin|]);
        by apply elem_of_nil in Hin. }
    destruct (Stage.reorder s); simpl.
    + split; [done|]. intros _. apply elem_of_app. right. constructor.
    + split; [|done]. intros Hin.
      apply elem_of_app in Hin as [Hin|Hin]; [done|].
      destruct (android4 w && Stage.autoClear s); simpl in Hin;
        repeat (apply elem_of_cons in Hin as [Hin|Hin]; [discriminate Hin|]);
        by apply elem_of_nil in Hin.
  - exists s'. split; [done|]. split; [done|]. split.
    + intros Hf. by rewrite Hf in Hcs.
    + intros Hf. rewrite Hf in Hcs. rewrite Hcs.
      split; [done|]. split; [apply array_sort_Permutation|].
      split; [apply array_sort_ascending|]. intros k. apply array_sort_stable.
Qed.

(** C7 (as amended): the cull pass leaves the [visible] flag of a child named
    'entity-managed' as it is, whatever its bounds and the camera, provided
    the child is not force-hidden. *)
Theorem cull_pass_skips_managed (resp : Resp) (h : Handler) (s : Stage.t) :
  stage_after_dispatch handle_render resp h = Some s →
  let cull := cull_child (camera h) (countdown (paused h) (delta resp)) in
  ∃ s',
    stage (tick w handle_render resp h).1 = Some s'
    ∧ Stage.children s' ≡ₚ cull <$> Stage.children s
    ∧ ∀ child,
        child ∈ Stage.children s →
        Child.name child = "entity-managed" →
        Child.hidden child = false →
        Child.visible (cull child) = Child.visible child.
Proof.
  intros Hs cull.
  destruct (tick_with_stage w handle_render resp h s Hs)
    as (s' & Hs' & Hcs & _).
  exists s'. split; [done|]. split.
  { rewrite Hcs. destruct (Stage.reorder s); [|done].
    apply array_sort_Permutation. }
  intros child _ Hn Hh. by apply cull_child_visible_managed.
Qed.

End CullAndSort.

(** C7, the claim as stated fails: a child named 'entity-managed' that is
    force-hidden and visible is made invisible by the cull pass. *)
Lemma hidden_managed_child_is_culled :
  let child := sprite "entity-managed" true true 0 None in
  Child.name child = "entity-managed"
  ∧ Child.visible child = true
  ∧ shown retina still [Tick {| delta := int 16 |}] (staged 1 [child])
    = Some [false].
Proof. repeat split; reflexivity. Qed.

Lemma cull_pass_sets_visibility_witness :
  ∃ s',
    stage (tick retina still {| delta := int 16 |}
             (staged 1 [sprite "sprite" false true 0 (Some (box 150 0 10 10))])).1
    = Some s'.
Proof.
  destruct (proj1 (cull_pass_sets_visibility retina still)
              {| delta := int 16 |}
              (staged 1 [sprite "sprite" false true 0 (Some (box 150 0 10 10))])
              (Stage.make 1 [sprite "sprite" false true 0 (Some (box 150 0 10 10))]
                 false false (Num 1) (Num 1))
              eq_refl) as (s' & Hs' & _).
  by exists s'.
Defined.

Lemma resort_iff_reorder_flag_witness :
  let s :=
    Stage.make 1 [sprite "b" false true 2 None; sprite "a" false true 1 None]
      true false (Num 1) (Num 1) in
  SortChildren ∈ (tick retina still {| delta := int 16 |}
                    (set_stage (Some s) (fresh 1))).2.
Proof.
  intros s.
  apply (resort_iff_reorder_flag retina still {| delta := int 16 |}
           (set_stage (Some s) (fresh 1)) s eq_refl).
  reflexivity.
Defined.

Lemma cull_pass_skips_managed_witness :
  ∃ s',
    stage (tick retina still {| delta := int 16 |}
             (staged 1 [sprite "entity-managed" false false 0
                          (Some (box 0 0 10 10))])).1
    = Some s'.
Proof.
  destruct (cull_pass_skips_managed retina still {| delta := int 16 |}
              (staged 1 [sprite "entity-managed" false false 0
                           (Some (box 0 0 10 10))])
              (Stage.make 1 [sprite "entity-managed" false false 0
                               (Some (box 0 0 10 10))]
                 false false (Num 1) (Num 1))
              eq_refl) as (s' & Hs' & _).
  by exists s'.
Defined.

(** ** Before the first camera-update *)

Section BeforeCameraUpdate.

Variable w : Window.
Variable handle_render : gmap string value → Stage.t → Stage.t.

Lemma tick_camera (resp : Resp) (h : Handler) :
  camera (tick w handle_render resp h).1 = camera h.
Proof.
  unfold tick. pose proof (dispatch_camera handle_render (prepare resp h)) as Hc.
  destruct (dispatch handle_render (prepare resp h)) as [h3 sent].
  simpl in Hc. destruct (stage h3) as [s|]; [|done].
  by destruct (render w resp (paused h3) (camera h3) s).
Qed.

Lemma deliver_camera (e : event) (h : Handler) :
  is_camera_update e = false →
  camera (deliver w handle_render e h).1 = camera h.
Proof.
  destruct e; simpl; try done; intros _.
  - unfold load. by case_bool_decide.
  - unfold pause_render. destruct resp as [t|]; [destruct (truthy t)|]; done.
  - apply tick_camera.
  - unfold handle_render_addition. by destruct (additionListener h).
  - unfold mousedown. destruct (input h) as [i|], (stage h); try done.
    simpl. by destruct (Input.cameraMovementMovesMouse i).
  - unfold mouseup. destruct (input h) as [i|], (stage h); try done.
    simpl. by destruct (Input.cameraMovementMovesMouse i).
  - unfold mousemove. by destruct (input h), (stage h).
  - unfold destroy. by destruct (stage h).
Qed.

Lemma run_camera (es : list event) (h : Handler) :
  Forall (λ e, is_camera_update e = false) es →
  camera (run w handle_render es h).1 = camera h.
Proof.
  intros Hes. revert h. induction Hes as [|e es He _ IH]; intros h; [done|].
  simpl. pose proof (deliver_camera e h He) as Hc.
  destruct (deliver w handle_render e h) as [h1 log1].
  specialize (IH h1).
  destruct (run w handle_render es h1) as [h2 log2].
  simpl in *. congruence.
Qed.

(** C10: the constructor gives the camera the fields [left], [top], [width]
    and [height]; [x] and [y] stay undefined until a camera-update writes
    them.  Until then every tick makes invisible each child that is not
    force-hidden, not entity-managed and has transformed bounds. *)
Theorem without_camera_update_all_culled
    (stage_id : nat) (owner_has_children : bool) (definition : Definition_)
    (es : list event) (resp : Resp) (s : Stage.t) :
  let h :=
    (run w handle_render es
       (constructor stage_id owner_has_children definition).1).1 in
  Forall (λ e, is_camera_update e = false) es →
  stage_after_dispatch handle_render resp h = Some s →
  camera h !! "x" = None
  ∧ camera h !! "y" = None
  ∧ camera h !! "left" = Some (Num 0)
  ∧ camera h !! "top" = Some (Num 0)
  ∧ ∃ s',
      stage (tick w handle_render resp h).1 = Some s'
      ∧ Stage.children s'
        ≡ₚ cull_child (camera h) (countdown (paused h) (delta resp))
             <$> Stage.children s
      ∧ ∀ child,
          child ∈ Stage.children s' →
          Child.hidden child = false →
          Child.name child ≠ "entity-managed" →
          is_Some (Child.bounds child) →
          Child.visible child = false.
Proof.
  intros h Hes Hs.
  assert (camera h
          = {[ "left" := Num 0; "top" := Num 0;
               "width" := Num 0; "height" := Num 0 ]}) as Hcam.
  { unfold h. rewrite run_camera by done. unfold constructor.
    by repeat case_match. }
  rewrite Hcam. repeat (split; [done|]). rewrite <- Hcam.
  destruct (tick_with_stage w handle_render resp h s Hs)
    as (s' & Hs' & Hcs & _).
  assert (Stage.children s'
          ≡ₚ cull_child (camera h) (countdown (paused h) (delta resp))
               <$> Stage.children s) as Hperm.
  { rewrite Hcs. destruct (Stage.reorder s); [|done].
    apply array_sort_Permutation. }
  exists s'. split; [done|]. split; [done|].
  intros child' Hin Hh Hn [b Hb].
  rewrite Hperm in Hin. apply list_elem_of_fmap in Hin as (child & -> & _).
  rewrite cull_child_hidden in Hh. rewrite cull_child_name in Hn.
  rewrite cull_child_bounds in Hb.
  rewrite cull_child_visible_bounds, Hb by done.
  apply in_camera_no_origin. unfold prop. by rewrite Hcam.
Qed.

End BeforeCameraUpdate.

Lemma without_camera_update_all_culled_witness :
  camera
    (run retina still
       [DisplayListEdit
          (Stage.set_children
             [sprite "sprite" false true 0 (Some (box 0 0 10 10))])]
       (constructor 1 true click_only).1).1 !! "x" = None.
Proof.
  exact (proj1
           (without_camera_update_all_culled retina still 1 true click_only
              [DisplayListEdit
                 (Stage.set_children
                    [sprite "sprite" false true 0 (Some (box 0 0 10 10))])]
              {| delta := int 16 |}
              (Stage.make 1 [sprite "sprite" false true 0 (Some (box 0 0 10 10))]
                 false false (Num 1) (Num 1))
              ltac:(repeat constructor) eq_refl)).
Defined.

(** ** The pause countdown *)

Lemma countdown_not_negative (p d : num) :
  js_gt p (Num 0) = true → js_lt (countdown p d) (Num 0) = false.
Proof.
  intros Hp. unfold countdown. rewrite Hp. simpl.
  destruct (js_lt (js_sub p d) (Num 0)) eqn:Hlt; [|done].
  apply Qc_ltb_irrefl.
Qed.

Lemma countdown_idle (p d : num) :
  js_gt p (Num 0) = false → countdown p d = p.
Proof. intros Hp. unfold countdown. by rewrite Hp. Qed.

Lemma countdown_numbers (p d : Qc) :
  0 < p →
  ∃ p', countdown (Num p) (Num d) = Num p'
        ∧ 0 ≤ p'
        ∧ (p - d ≤ 0 → p' = 0)
        ∧ (0 ≤ p - d → p' = p - d).
Proof.
  intros Hp. unfold countdown, js_gt. simpl.
  apply Qc_ltb_lt in Hp as Hp'. rewrite Hp'.
  destruct (Qc_ltb (p - d) 0) eqn:Hlt.
  - apply Qc_ltb_lt in Hlt. exists 0. split; [done|]. split; [done|].
    split; [done|]. intros Hge. by apply Qcle_not_lt in Hge.
  - assert (0 ≤ p - d) as Hge.
    { apply Qcnot_lt_le. intros H. apply Qc_ltb_lt in H. congruence. }
    exists (p - d). split; [done|]. split; [done|]. split; [|done].
    intros Hle. by apply Qcle_antisym.
Qed.

(** Under an unpaused handler a visible child ends unpaused. *)
Lemma cull_child_unpaused cam p child :
  truthy p = false →
  Child.visible (cull_child cam p child) = true →
  Child.paused (cull_child cam p child) = false.
Proof.
  intros Hp. unfold cull_child.
  generalize (cull_visible cam child). intros c.
  unfold cull_paused. rewrite Hp. simpl.
  destruct (Child.visible c) eqn:Hv; [|by rewrite Hv].
  rewrite andb_true_r. by destruct (Child.paused c) eqn:Hc.
Qed.

Section Pause.

Variable w : Window.
Variable handle_render : gmap string value → Stage.t → Stage.t.

Lemma tick_paused (resp : Resp) (h : Handler) :
  paused (tick w handle_render resp h).1 = countdown (paused h) (delta resp).
Proof.
  unfold tick. pose proof (dispatch_paused handle_render (prepare resp h)) as Hp.
  destruct (dispatch handle_render (prepare resp h)) as [h3 sent].
  simpl in Hp. destruct (stage h3) as [s|]; [|done].
  by destruct (render w resp (paused h3) (camera h3) s).
Qed.

Lemma tick_stage_inv (resp : Resp) (h : Handler) (s' : Stage.t) :
  stage (tick w handle_render resp h).1 = Some s' →
  ∃ s, stage_after_dispatch handle_render resp h = Some s.
Proof.
  unfold stage_after_dispatch, tick.
  destruct (dispatch handle_render (prepare resp h)) as [h3 sent]. simpl.
  destruct (stage h3) as [s|] eqn:Hs3; [by exists s|].
  simpl. rewrite Hs3. discriminate.
Qed.

(** C8 (as amended): a tick that finds the countdown positive subtracts the
    elapsed delta and stops at 0, so no tick makes the countdown negative; a
    tick that finds it at 0, negative or undefined leaves it alone.  On the
    tick that brings it to 0 the handler counts as unpaused: every visible
    child ends that tick unpaused.  A pause request sets the countdown to its
    time when that time is truthy, a negative one included, and to the marker
    -1 otherwise: without an argument, without a time, and also with a time
    of 0 or NaN.  A negative time stays as it is under every tick and keeps
    the handler paused.  An unpause request sets 0. *)
Theorem pause_countdown_floor :
  (∀ resp h,
     js_gt (paused h) (Num 0) = true →
     let p' := paused (tick w handle_render resp h).1 in
     js_lt p' (Num 0) = false
     ∧ p' = (if js_lt (js_sub (paused h) (delta resp)) (Num 0)
             then Num 0 else js_sub (paused h) (delta resp)))
  ∧ (∀ resp h p d,
       paused h = Num p → delta resp = Num d → 0 < p →
       ∃ p', paused (tick w handle_render resp h).1 = Num p'
             ∧ 0 ≤ p'
             ∧ (p - d ≤ 0 → p' = 0)
             ∧ (0 ≤ p - d → p' = p - d))
  ∧ (∀ resp h,
       js_gt (paused h) (Num 0) = false →
       paused (tick w handle_render resp h).1 = paused h)
  ∧ (∀ resp h s',
       paused (tick w handle_render resp h).1 = Num 0 →
       stage (tick w handle_render resp h).1 = Some s' →
       truthy (paused (tick w handle_render resp h).1) = false
       ∧ ∀ child,
           child ∈ Stage.children s' →
           Child.visible child = true → Child.paused child = false)
  ∧ (∀ time h,
       paused (pause_render (Some time) h)
       = if truthy time then time else Num (-1))
  ∧ (∀ h, paused (pause_render None h) = Num (-1)
          ∧ paused (pause_render (Some Undefined) h) = Num (-1)
          ∧ paused (pause_render (Some NaN) h) = Num (-1)
          ∧ paused (pause_render (Some (Num 0)) h) = Num (-1))
  ∧ (∀ h, paused (unpause_render h) = Num 0)
  ∧ (∀ resp h,
       js_lt (paused h) (Num 0) = false →
       js_lt (paused (tick w handle_render resp h).1) (Num 0) = false)
  ∧ (∀ p resp h,
       p < 0 →
       let h' := pause_render (Some (Num p)) h in
       paused h' = Num p
       ∧ paused (tick w handle_render resp h').1 = Num p
       ∧ truthy (paused (tick w handle_render resp h').1) = true).
Proof.
  split_and!.
  - intros resp h Hp p'. subst p'. rewrite tick_paused.
    split; [by apply countdown_not_negative|].
    unfold countdown. by rewrite Hp.
  - intros resp h p d Hp Hd Hpos. rewrite tick_paused, Hp, Hd.
    by apply countdown_numbers.
  - intros resp h Hp. rewrite tick_paused. by apply countdown_idle.
  - intros resp h s' Hz Hs'. split; [by rewrite Hz|].
    intros child Hin Hv.
    destruct (tick_stage_inv resp h s' Hs') as [s Hs].
    destruct (tick_with_stage w handle_render resp h s Hs)
      as (s'' & Hs'' & Hcs & _).
    rewrite Hs' in Hs''. injection Hs'' as <-.
    rewrite tick_paused in Hz.
    assert (child ∈ cull_child (camera h) (countdown (paused h) (delta resp))
                      <$> Stage.children s) as Hc.
    { rewrite Hcs in Hin. destruct (Stage.reorder s); [|done].
      by rewrite array_sort_Permutation in Hin. }
    apply list_elem_of_fmap in Hc as (c & -> & _).
    apply cull_child_unpaused; [|done]. by rewrite Hz.
  - intros time h. unfold pause_render. by destruct (truthy time).
  - intros h. by split_and!.
  - done.
  - intros resp h Hn. rewrite tick_paused.
    destruct (js_gt (paused h) (Num 0)) eqn:Hp.
    + by apply countdown_not_negative.
    + by rewrite countdown_idle.
  - intros p resp h Hp h'.
    assert (truthy (Num p) = true) as Ht.
    { simpl. apply negb_true_iff, not_true_iff_false. rewrite Qc_eqb_eq.
      intros ->. by apply Qclt_not_eq in Hp. }
    assert (paused h' = Num p) as Hh'.
    { subst h'. unfold pause_render. by rewrite Ht. }
    assert (js_gt (Num p) (Num 0) = false) as Hg.
    { simpl. apply not_true_iff_false. rewrite Qc_ltb_lt.
      by apply Qcle_not_lt, Qclt_le_weak. }
    split; [done|]. rewrite tick_paused, Hh', countdown_idle by done. done.
Qed.

End Pause.

Lemma pause_countdown_floor_witness :
  ∃ p',
    paused (tick retina still {| delta := int 16 |}
              (pause_render (Some (int 10)) (fresh 1))).1 = Num p'
    ∧ 0 ≤ p'.
Proof.
  destruct (proj1 (proj2 (pause_countdown_floor retina still))
              {| delta := int 16 |} (pause_render (Some (int 10)) (fresh 1))
              (Q2Qc (inject_Z 10)) (Q2Qc (inject_Z 16))
              eq_refl eq_refl eq_refl) as (p' & Hp' & Hge & _).
  by exists p'.
Defined.

(** C8, the claim as stated fails: a pause request with a time of 0 sets the
    marker -1 and not that time, and one with a time of -5 sets a countdown
    that is negative without being the marker and that a tick leaves so. *)
Lemma pause_request_sets_negative_countdown :
  paused (pause_render (Some (int 0)) (fresh 1)) = Num (-1)
  ∧ paused (pause_render (Some (int (-5))) (fresh 1)) = int (-5)
  ∧ paused (tick retina still {| delta := int 16 |}
              (pause_render (Some (int (-5))) (fresh 1))).1 = int (-5)
  ∧ js_lt (int (-5)) (Num 0) = true
  ∧ ¬ (∀ (time : Qc) h, paused (pause_render (Some (Num time)) h) = Num time)
  ∧ ¬ (∀ (time : Qc) resp h,
         let p := paused (tick retina still resp
                            (pause_render (Some (Num time)) h)).1 in
         js_lt p (Num 0) = false ∨ p = Num (-1)).
Proof.
  split_and!; [evaluate..| |].
  - intros H. specialize (H (Q2Qc (inject_Z 0)) (fresh 1)).
    revert H. evaluate.
  - intros H.
    specialize (H (Q2Qc (inject_Z (-5))) {| delta := int 16 |} (fresh 1)).
    cbv zeta in H. revert H. evaluate.
Qed.

(** ** Pointer translation and the public query *)

Section Coordinates.

Variable w : Window.

Lemma dpr_devicePixelRatio :
  truthy (devicePixelRatio w) = true → dpr w = devicePixelRatio w.
Proof. intros Ht. unfold dpr, js_or. by rewrite Ht. Qed.

(** C9: a press is handed to the owner as one 'mousedown' notification whose
    world point is [(event.stageX / dpr) / stage.scaleX + camera.x] and
    likewise in y, [dpr] being the device pixel ratio (1 when the page gives
    none); a press at device pixel (100,50) under a ratio of 2, a unit stage
    scale and the camera at the origin arrives as (50,25). *)
Theorem press_world_point :
  (∀ event h i s,
     input h = Some i →
     stage h = Some s →
     (mousedown w event h).2
     = [Trigger "mousedown"
          {| pick_event := nativeEvent event;
             pick_x := translator_formula (stageX event) (dpr w)
                         (Stage.scaleX s) (prop (camera h) "x");
             pick_y := translator_formula (stageY event) (dpr w)
                         (Stage.scaleY s) (prop (camera h) "y") |}])
  ∧ (truthy (devicePixelRatio w) = true → dpr w = devicePixelRatio w)
  ∧ (mousedown retina press (at_origin 1)).2
    = [Trigger "mousedown"
         {| pick_event := nativeEvent press;
            pick_x := int 50; pick_y := int 25 |}].
Proof.
  split_and!.
  - intros event h i s Hi Hs. unfold mousedown. rewrite Hi, Hs. done.
  - apply dpr_devicePixelRatio.
  - evaluate.
Qed.

(** C1 (as amended): the public query multiplies the screen point by the
    device pixel ratio where the pointer translator divides by it; the two
    agree when the ratio is 1. *)
Theorem world_point_from_screen (sp : Point) (h : Handler) (s : Stage.t) :
  stage h = Some s →
  getWorldPointFromScreen w sp h
  = Some {| point_x :=
              js_add (js_div (js_mul (point_x sp) (dpr w)) (Stage.scaleX s))
                (prop (camera h) "x");
            point_y :=
              js_add (js_div (js_mul (point_y sp) (dpr w)) (Stage.scaleY s))
                (prop (camera h) "y") |}
  ∧ (dpr w = Num 1 →
     getWorldPointFromScreen w sp h
     = Some {| point_x := translator_formula (point_x sp) (dpr w)
                            (Stage.scaleX s) (prop (camera h) "x");
               point_y := translator_formula (point_y sp) (dpr w)
                            (Stage.scaleY s) (prop (camera h) "y") |}).
Proof.
  intros Hs. unfold getWorldPointFromScreen. rewrite Hs.
  split; [done|]. intros ->. unfold translator_formula.
  by rewrite !js_div_one.
Qed.

End Coordinates.

Lemma press_world_point_witness :
  (mousedown retina press (at_origin 1)).2
  = [Trigger "mousedown"
       {| pick_event := nativeEvent press;
          pick_x := translator_formula (stageX press) (dpr retina)
                      (Num 1) (prop (camera (at_origin 1)) "x");
          pick_y := translator_formula (stageY press) (dpr retina)
                      (Num 1) (prop (camera (at_origin 1)) "y") |}].
Proof.
  exact (proj1 (press_world_point retina) press (at_origin 1)
           (Input.make false false None (Num 0) (Num 0))
           (Stage.make 1 [] false false (Num 1) (Num 1))
           eq_refl eq_refl).
Defined.

(** C1, the claim as stated fails: under a device pixel ratio of 2, a unit
    stage scale and the camera at the origin, the query maps the screen point
    (100,50) to (200,100), and the translator's formula gives (50,25). *)
Lemma world_point_from_screen_differs :
  getWorldPointFromScreen retina {| point_x := int 100; point_y := int 50 |}
    (at_origin 1)
  = Some {| point_x := int 200; point_y := int 100 |}
  ∧ translator_formula (int 100) (dpr retina) (Num 1)
      (prop (camera (at_origin 1)) "x") = int 50
  ∧ translator_formula (int 50) (dpr retina) (Num 1)
      (prop (camera (at_origin 1)) "y") = int 25
  ∧ ¬ (∀ w sp h s,
         stage h = Some s →
         getWorldPointFromScreen w sp h
         = Some {| point_x := translator_formula (point_x sp) (dpr w)
                                (Stage.scaleX s) (prop (camera h) "x");
                   point_y := translator_formula (point_y sp) (dpr w)
                                (Stage.scaleY s) (prop (camera h) "y") |}).
Proof.
  split_and!; [evaluate..|].
  intros H.
  specialize (H retina {| point_x := int 100; point_y := int 50 |}
                (at_origin 1) (Stage.make 1 [] false false (Num 1) (Num 1))
                eq_refl).
  revert H. evaluate.
Qed.

Lemma world_point_from_screen_witness :
  getWorldPointFromScreen {| devicePixelRatio := Undefined; android4 := false |}
    {| point_x := int 100; point_y := int 50 |} (at_origin 1)
  = Some {| point_x := translator_formula (int 100) (Num 1) (Num 1)
                         (prop (camera (at_origin 1)) "x");
            point_y := translator_formula (int 50) (Num 1) (Num 1)
                         (prop (camera (at_origin 1)) "y") |}.
Proof.
  exact (proj2 (world_point_from_screen
                  {| devicePixelRatio := Undefined; android4 := false |}
                  {| point_x := int 100; point_y := int 50 |} (at_origin 1)
                  (Stage.make 1 [] false false (Num 1) (Num 1)) eq_refl)
           eq_refl).
Defined.

(** ** Extra content and parallel handlers *)

Lemma union_difference_left (e m : gmap string value) : (e ∪ m) ∖ e = m ∖ e.
Proof.
  apply map_eq. intros k. rewrite !lookup_difference, lookup_union.
  destruct (e !! k) eqn:He; [done|]. by rewrite (left_id_L None (∪)).
Qed.

Lemma dispatched_app (l1 l2 : list action) :
  dispatched (l1 ++ l2) = dispatched l1 ++ dispatched l2.
Proof. apply omap_app. Qed.

Lemma absorb_app (l1 l2 : list action) (h : Handler) :
  absorb (l1 ++ l2) h = absorb l2 (absorb l1 h).
Proof.
  revert h. induction l1 as [|a l1 IH]; intros h; [done|].
  destruct a; try apply IH.
  simpl. repeat case_match; apply IH.
Qed.

Lemma load_last_spec (self i : nat) (types : list string) (last : option nat) :
  load_last self i types last = Some self
  ↔ ((i ≤ self < i + length types)%nat
     ∧ ∀ j ty, types !! j = Some ty → (self < i + j)%nat →
               String.eqb (String.substring 0 14 ty) "handler-render" = false)
    ∨ (last = Some self
       ∧ ∀ j ty, types !! j = Some ty →
                 (i + j)%nat ≠ self
                 ∧ String.eqb (String.substring 0 14 ty) "handler-render"
                   = false).
Proof.
  revert i last. induction types as [|ty rest IH]; intros i last; simpl.
  - split.
    + intros ->. right. split; [done|]. intros j ty Hj. by destruct j.
    + intros [[Hr _]|[-> _]]; [lia|done].
  - rewrite IH. clear IH. split.
    + intros [[Hr Hlater]|[Hlast Hrest]].
      * left. split; [lia|]. intros [|j] ty' Hj Hlt; simpl in Hj; [lia|].
        apply (Hlater j ty' Hj). lia.
      * destruct (decide (i = self)) as [->|Hne].
        -- left. split; [lia|].
           intros [|j] ty' Hj Hlt; simpl in Hj; [lia|].
           by apply (Hrest j ty' Hj).
        -- rewrite bool_decide_eq_false_2 in Hlast by done. simpl in Hlast.
           destruct (String.eqb _ _) eqn:Hp; [congruence|].
           right. split; [done|].
           intros [|j] ty' Hj; simpl in Hj.
           ++ injection Hj as <-. split; [lia|done].
           ++ destruct (Hrest j ty' Hj) as [Hn Hq]. split; [lia|done].
    + intros [[Hr Hlater]|[Hlast Hall]].
      * destruct (decide (i = self)) as [->|Hne].
        -- right. rewrite bool_decide_eq_true_2 by done. split; [done|].
           intros j ty' Hj. split; [lia|].
           apply (Hlater (S j) ty' Hj). lia.
        -- left. split; [lia|]. intros j ty' Hj Hlt.
           apply (Hlater (S j) ty' Hj). lia.
      * destruct (Hall 0%nat ty eq_refl) as [Hne Hp].
        right. rewrite Hp, bool_decide_eq_false_2 by lia. split; [done|].
        intros j ty' Hj. destruct (Hall (S j) ty' Hj) as [Hn Hq].
        split; [lia|done].
Qed.




Section Arbitration.

Variable w : Window.
Variable handle_render : gmap string value → Stage.t → Stage.t.

(** What the part of the tick under [if (this.stage)] sends out is neither a
    broadcast to the children nor an addition. *)
Lemma render_log (resp : Resp) (p : num) (cam : gmap string num) (s : Stage.t) :
  dispatched (render w resp p cam s).2 = []
  ∧ ∀ x, absorb (render w resp p cam s).2 x = x.
Proof.
  unfold render.
  destruct (Stage.reorder _), (android4 w && _); simpl; done.
Qed.

Lemma tick_summary (resp : Resp) (h : Handler) :
  ∃ st drawn,
    tick w handle_render resp h
    = (set_stage st (dispatch handle_render (prepare resp h)).1,
       (dispatch handle_render (prepare resp h)).2 ++ drawn)
    ∧ dispatched drawn = []
    ∧ ∀ x, absorb drawn x = x.
Proof.
  unfold tick.
  destruct (dispatch handle_render (prepare resp h)) as [h3 sent]. simpl.
  destruct (stage h3) as [s|] eqn:Hs.
  - pose proof (render_log resp (paused h3) (camera h3) s) as [Hd Ha].
    destruct (render w resp (paused h3) (camera h3) s) as [s' drawn].
    by exists (Some s'), drawn.
  - exists None, []. rewrite (right_id_L [] (++)).
    split; [|done]. f_equal. destruct h3. simpl in Hs. by subst.
Qed.

(** A secondary handler sends its own render message as the addition. *)
Lemma dispatch_secondary (h : Handler) :
  handleChildren h = false →
  dispatch handle_render h
  = (h, [TriggerEvent "handle-render-addition" (renderMessage h)]).
Proof. intros Hh. unfold dispatch. by rewrite Hh. Qed.

(** A primary handler merges the pending content, broadcasts, and cleans up. *)
Lemma dispatch_primary (h : Handler) :
  handleChildren h = true →
  triggerEventOnChildren h = true →
  let pending := default ∅ (extraContent h) in
  (dispatch handle_render h).2
  = [TriggerEventOnChildren "handle-render" (pending ∪ renderMessage h)]
  ∧ renderMessage (dispatch handle_render h).1 = renderMessage h ∖ pending
  ∧ default ∅ (extraContent (dispatch handle_render h).1) = ∅
  ∧ handleChildren (dispatch handle_render h).1 = true
  ∧ triggerEventOnChildren (dispatch handle_render h).1 = true
  ∧ additionListener (dispatch handle_render h).1 = additionListener h.
Proof.
  intros Hh Ht pending. subst pending. unfold dispatch. rewrite Hh, Ht.
  destruct (extraContent h) as [extra|] eqn:He; simpl.
  - rewrite copy_properties_union, delete_properties_difference,
      delete_properties_self, union_difference_left. done.
  - by rewrite He, (left_id_L ∅ (∪)), map_difference_empty.
Qed.

(** The test in [load] looks for the prefix 'handler-render': components
    whose [type] is this class's id, "HandlerRenderCreateJS", do not pass it,
    and each of two such handlers keeps the children. *)
Lemma load_class_id (a0 b0 : Handler) :
  load 0 ["HandlerRenderCreateJS"; "HandlerRenderCreateJS"] a0
  = set_additionListener true a0
  ∧ load 1 ["HandlerRenderCreateJS"; "HandlerRenderCreateJS"] b0
    = set_additionListener true b0.
Proof. done. Qed.

End Arbitration.

Section Frames.

Variable w : Window.
Variable handle_render : gmap string value → Stage.t → Stage.t.

Lemma tick_secondary (resp : Resp) (a x : Handler) :
  handleChildren a = false →
  let addition := <["delta" := VNum (delta resp)]> (renderMessage a) in
  dispatched (tick w handle_render resp a).2 = []
  ∧ absorb (tick w handle_render resp a).2 x = handle_render_addition addition x
  ∧ handleChildren (tick w handle_render resp a).1 = false
  ∧ additionListener (tick w handle_render resp a).1 = additionListener a.
Proof.
  intros Ha addition.
  destruct (tick_summary w handle_render resp a) as (st & drawn & -> & Hd & Hx).
  rewrite dispatch_secondary by done. simpl.
  by rewrite Hd, Hx.
Qed.

Lemma tick_primary (resp : Resp) (b x : Handler) :
  handleChildren b = true →
  triggerEventOnChildren b = true →
  let pending := default ∅ (extraContent b) in
  let message := <["delta" := VNum (delta resp)]> (renderMessage b) in
  dispatched (tick w handle_render resp b).2 = [pending ∪ message]
  ∧ absorb (tick w handle_render resp b).2 x = x
  ∧ renderMessage (tick w handle_render resp b).1 = message ∖ pending
  ∧ default ∅ (extraContent (tick w handle_render resp b).1) = ∅
  ∧ handleChildren (tick w handle_render resp b).1 = true
  ∧ triggerEventOnChildren (tick w handle_render resp b).1 = true
  ∧ additionListener (tick w handle_render resp b).1 = additionListener b.
Proof.
  intros Hb Ht pending message.
  destruct (tick_summary w handle_render resp b) as (st & drawn & -> & Hd & Hx).
  destruct (dispatch_primary handle_render (prepare resp b) Hb Ht)
    as (Hlog & Hm & He & Hh & Hc & Hl).
  simpl. rewrite Hlog, dispatched_app, Hd. simpl. rewrite Hx.
  rewrite Hm, He, Hh, Hc, Hl. repeat split.
Qed.




(** With the handlers ticked in the order of attachment instead, the same
    code hands the secondary's message to the children in the same tick. *)
Lemma attach_order_dispatches_same_tick (resp : Resp) (a b : Handler) :
  handleChildren a = false →
  handleChildren b = true →
  additionListener b = true →
  triggerEventOnChildren b = true →
  ∃ m,
    dispatched (owner_tick_attach_order w handle_render resp (a, b)).2 = [m]
    ∧ ∀ k v,
        (<["delta" := VNum (delta resp)]> (renderMessage a)) !! k = Some v →
        m !! k = Some v.
Proof.
  intros Ha Hb Hlb Ht. unfold owner_tick_attach_order.
  destruct (tick_secondary resp a b Ha) as (Hda & Hxa & _).
  destruct (tick w handle_render resp a) as [a1 log_a]. simpl in Hda, Hxa.
  rewrite Hxa. unfold handle_render_addition. rewrite Hlb.
  set (b' := set_extraContent _ b).
  destruct (tick_primary resp b' a1 Hb Ht) as (Hd & _).
  destruct (tick w handle_render resp b') as [b1 log_b]. simpl in Hd. simpl.
  rewrite dispatched_app, Hda, Hd. simpl. eexists. split; [done|].
  intros k v Hk. rewrite copy_properties_union.
  apply lookup_union_Some_l. by apply lookup_union_Some_l.
Qed.

End Frames.



Section Cleanup.

Variable w : Window.
Variable handle_render : gmap string value → Stage.t → Stage.t.

(** X1: after the tick of a primary handler no merged key is left, neither in
    the render message nor in the pending extra content; the other keys of
    the message are as the head of the tick set them. *)
Theorem merged_keys_removed_after_dispatch
    (resp : Resp) (h : Handler) (extra : gmap string value) :
  handleChildren h = true →
  triggerEventOnChildren h = true →
  extraContent h = Some extra →
  let h' := (tick w handle_render resp h).1 in
  dispatched (tick w handle_render resp h).2
  = [extra ∪ <["delta" := VNum (delta resp)]> (renderMessage h)]
  ∧ extraContent h' = Some ∅
  ∧ (∀ k, is_Some (extra !! k) → renderMessage h' !! k = None)
  ∧ (∀ k, extra !! k = None →
          renderMessage h' !! k
          = (<["delta" := VNum (delta resp)]> (renderMessage h)) !! k).
Proof.
  intros Hh Ht He h'. subst h'.
  destruct (tick_primary w handle_render resp h h Hh Ht)
    as (Hd & _ & Hm & _).
  rewrite He in Hd, Hm. simpl in Hd, Hm. split; [done|]. split.
  - destruct (tick_summary w handle_render resp h) as (st & drawn & -> & _).
    simpl. unfold dispatch. simpl. rewrite Hh, Ht, He. simpl.
    by rewrite delete_properties_self.
  - rewrite Hm. split; intros k Hk; rewrite lookup_difference.
    + by destruct Hk as [v ->].
    + by rewrite Hk.
Qed.

End Cleanup.

Lemma merged_keys_removed_after_dispatch_witness :
  renderMessage
    (tick retina still {| delta := int 16 |}
       (handle_render_addition {[ "score" := VNum (int 3) ]} primary)).1
    !! "score" = None.
Proof.
  assert (extraContent
            (handle_render_addition {[ "score" := VNum (int 3) ]} primary)
          = Some {[ "score" := VNum (int 3) ]}) as He by evaluate.
  destruct (merged_keys_removed_after_dispatch retina still
              {| delta := int 16 |}
              (handle_render_addition {[ "score" := VNum (int 3) ]} primary)
              {[ "score" := VNum (int 3) ]} eq_refl eq_refl He)
    as (_ & _ & Hgone & _).
  apply Hgone. rewrite lookup_singleton_eq. by eexists.
Defined.

(** C2, where the code departs from the claim: the primary handler has
    absorbed the render message of the secondary one, whose keys are [delta]
    and [stage]; its next tick broadcasts them and then deletes them from its
    own render message, which is left empty. *)
Theorem absorbed_message_deletes_base_fields :
  extraContent
    (absorb (tick retina still {| delta := int 16 |} secondary).2 primary)
  = Some {[ "delta" := VNum (int 16); "stage" := VStage 1 ]}
  ∧ dispatched
      (tick retina still {| delta := int 16 |}
         (absorb (tick retina still {| delta := int 16 |} secondary).2 primary)).2
    = [{[ "delta" := VNum (int 16); "stage" := VStage 1 ]}]
  ∧ renderMessage
      (tick retina still {| delta := int 16 |}
         (absorb (tick retina still {| delta := int 16 |} secondary).2 primary)).1
    = ∅
  ∧ renderMessage primary
    = {[ "delta" := VNum (Num 0); "stage" := VStage 2 ]}.
Proof. split_and!; evaluate. Qed.

(** * Further properties of the render handler *)

(** Linear arithmetic on [Qc], through [Q]. *)
Ltac qc_lra :=
  try apply Qc_is_canon;
  unfold Qcle, Qclt, Qcminus, Qcplus, Qcopp in *; simpl in *;
  repeat rewrite Qred_correct in *; lra.

(** ** Runs of events *)

Section Runs.

Variable w : Window.
Variable handle_render : gmap string value → Stage.t → Stage.t.

Lemma run_app (es1 es2 : list event) (h : Handler) :
  run w handle_render (es1 ++ es2) h
  = ((run w handle_render es2 (run w handle_render es1 h).1).1,
     (run w handle_render es1 h).2
       ++ (run w handle_render es2 (run w handle_render es1 h).1).2).
Proof.
  revert h. induction es1 as [|e es1 IH]; intros h; simpl.
  - by destruct (run w handle_render es2 h).
  - destruct (deliver w handle_render e h) as [h1 log1]. rewrite IH.
    destruct (run w handle_render es1 h1) as [h2 log2]. simpl.
    by rewrite (assoc_L (++)).
Qed.

Lemma call_moveMouse_camera (press0 : StageEvent) (h : Handler) :
  camera (call_moveMouse w press0 h).1 = camera h.
Proof.
  unfold call_moveMouse.
  destruct (input h) as [i|], (stage h); try done.
  by destruct (Input.originalEvent i).
Qed.

Lemma camera_update_camera (cameraInfo : CameraInfo) (h : Handler) :
  camera (camera_update w cameraInfo h).1
  = <["height" := viewportHeight cameraInfo]>
      (<["width" := viewportWidth cameraInfo]>
         (<["y" := viewportTop cameraInfo]>
            (<["x" := viewportLeft cameraInfo]> (camera h)))).
Proof.
  unfold camera_update. simpl. destruct (stage h) as [s|]; [|done]. simpl.
  destruct (moveMouse h) as [e|]; [|done]. by rewrite call_moveMouse_camera.
Qed.

(** X2: whatever happened before and whatever other events follow, the
    camera rectangle the cull pass reads is the viewport of the last
    camera-update, also when that update found the handler destroyed. *)
Theorem camera_is_last_viewport
    (es1 es2 : list event) (cameraInfo : CameraInfo) (h : Handler) :
  Forall (λ e, is_camera_update e = false) es2 →
  let h' := (run w handle_render (es1 ++ CameraUpdate cameraInfo :: es2) h).1 in
  prop (camera h') "x" = viewportLeft cameraInfo
  ∧ prop (camera h') "y" = viewportTop cameraInfo
  ∧ prop (camera h') "width" = viewportWidth cameraInfo
  ∧ prop (camera h') "height" = viewportHeight cameraInfo.
Proof.
  intros Hes h'. subst h'. rewrite run_app. simpl.
  set (h1 := (run w handle_render es1 h).1).
  pose proof (camera_update_camera cameraInfo h1) as Hc.
  destruct (camera_update w cameraInfo h1) as [h2 log2]. simpl in Hc.
  pose proof (run_camera w handle_render es2 h2 Hes) as Hr.
  destruct (run w handle_render es2 h2) as [h3 log3]. simpl in *.
  rewrite Hr, Hc. unfold prop. by simplify_map_eq.
Qed.

End Runs.

Lemma camera_is_last_viewport_witness :
  prop
    (camera
       (run retina still
          ([Tick {| delta := int 16 |}]
             ++ CameraUpdate (viewport 60 0 100 100 (int 1))
             :: [Tick {| delta := int 16 |}]) (fresh 1)).1) "x"
  = int 60.
Proof.
  exact (proj1 (camera_is_last_viewport retina still
                  [Tick {| delta := int 16 |}] [Tick {| delta := int 16 |}]
                  (viewport 60 0 100 100 (int 1)) (fresh 1)
                  ltac:(repeat constructor))).
Defined.

(** ** More on the cull pass and the sort *)

Lemma cull_child_idempotent cam p child :
  cull_child cam p (cull_child cam p child) = cull_child cam p child.
Proof.
  destruct child as [n hd v pa z b].
  unfold cull_child, cull_paused, cull_visible. simpl.
  destruct hd, v, pa, (truthy p), (String.eqb n "entity-managed") eqn:Hn,
    (match b with Some b' => in_camera cam b' | None => true end) eqn:Hb;
    simpl; rewrite ?Hn, ?Hb; simpl; rewrite ?Hn, ?Hb; reflexivity.
Qed.

(** X3: run a second time with the same camera and pause state, the cull
    pass changes nothing. *)
Theorem cull_pass_idempotent (cam : gmap string num) (p : num)
    (children : list Child.t) :
  let once := cull_loop cam p (length children) children in
  cull_loop cam p (length once) once = once.
Proof.
  intros once. subst once.
  rewrite !cull_loop_fmap, <- list_fmap_compose.
  apply list_fmap_ext. intros _ c _. apply cull_child_idempotent.
Qed.

Lemma cull_child_fixed_part cam p child :
  fixed_part (cull_child cam p child) = fixed_part child.
Proof.
  unfold fixed_part.
  by rewrite cull_child_name, cull_child_hidden, cull_child_z, cull_child_bounds.
Qed.

Lemma array_sort_ascending_id (l : list Child.t) :
  ascending_z l → array_sort sort l = l.
Proof.
  unfold ascending_z. induction 1 as [|c l Hl IH Hc]; simpl; [done|].
  rewrite IH. destruct l as [|d l']; [done|]. simpl.
  destruct (Qc_ltb 0 (sort c d)) eqn:Hcd; [|done].
  apply sort_positive in Hcd. apply Forall_cons_1 in Hc as [Hle _].
  by apply Qcle_not_lt in Hle.
Qed.

Lemma ascending_z_cull cam p (l : list Child.t) :
  ascending_z l → ascending_z (cull_child cam p <$> l).
Proof.
  unfold ascending_z. induction 1 as [|c l Hl IH Hc]; simpl; constructor.
  - done.
  - apply Forall_fmap. eapply Forall_impl; [exact Hc|].
    intros d Hd. simpl. by rewrite !cull_child_z.
Qed.

(** Under a paused handler a visible child ends paused; an invisible child
    keeps its [paused] flag under any handler. *)
Lemma cull_child_paused cam p child :
  (truthy p = true →
   Child.visible (cull_child cam p child) = true →
   Child.paused (cull_child cam p child) = true)
  ∧ (Child.visible (cull_child cam p child) = false →
     Child.paused (cull_child cam p child) = Child.paused child).
Proof.
  destruct child as [n hd v pa z b].
  unfold cull_child, cull_paused, cull_visible. simpl.
  destruct hd, v, pa, (truthy p), (String.eqb n "entity-managed"),
    (match b with Some b' => in_camera cam b' | None => true end);
    simpl; split; congruence.
Qed.

Section TickFrame.

Variable w : Window.
Variable handle_render : gmap string value → Stage.t → Stage.t.

(** X4: a tick neither adds nor removes a child of the stage, and leaves
    the name, the [hidden] flag, the depth key and the bounds of each as they
    were; without the [reorder] flag the children also keep their order. *)
Theorem tick_keeps_children (resp : Resp) (h : Handler) (s : Stage.t) :
  stage_after_dispatch handle_render resp h = Some s →
  ∃ s',
    stage (tick w handle_render resp h).1 = Some s'
    ∧ fixed_part <$> Stage.children s' ≡ₚ fixed_part <$> Stage.children s
    ∧ length (Stage.children s') = length (Stage.children s)
    ∧ (Stage.reorder s = false →
       fixed_part <$> Stage.children s' = fixed_part <$> Stage.children s).
Proof.
  intros Hs.
  destruct (tick_with_stage w handle_render resp h s Hs)
    as (s' & Hs' & Hcs & _).
  set (cull := cull_child (camera h) (countdown (paused h) (delta resp))) in Hcs.
  assert (fixed_part <$> (cull <$> Stage.children s)
          = fixed_part <$> Stage.children s) as Hfix.
  { rewrite <- list_fmap_compose. apply list_fmap_ext.
    intros _ c _. apply cull_child_fixed_part. }
  assert (Stage.children s' ≡ₚ cull <$> Stage.children s) as Hperm.
  { rewrite Hcs. destruct (Stage.reorder s); [|done].
    apply array_sort_Permutation. }
  exists s'. split; [done|]. split; [by rewrite Hperm, Hfix|].
  split; [by rewrite Hperm, length_fmap|].
  intros Hr. by rewrite Hcs, Hr, Hfix.
Qed.

(** X5: when the children already stand in ascending order of [z], a tick
    with the [reorder] flag set leaves their order as it is. *)
Theorem sorted_children_keep_order (resp : Resp) (h : Handler) (s : Stage.t) :
  stage_after_dispatch handle_render resp h = Some s →
  ascending_z (Stage.children s) →
  ∃ s',
    stage (tick w handle_render resp h).1 = Some s'
    ∧ Stage.children s'
      = cull_child (camera h) (countdown (paused h) (delta resp))
          <$> Stage.children s.
Proof.
  intros Hs Hz.
  destruct (tick_with_stage w handle_render resp h s Hs)
    as (s' & Hs' & Hcs & _).
  exists s'. split; [done|]. rewrite Hcs.
  destruct (Stage.reorder s); [|done].
  apply array_sort_ascending_id. by apply ascending_z_cull.
Qed.

(** X6: while the handler is paused (a countdown still positive after this
    tick, or the marker -1) every child that the tick leaves visible is left
    paused, and a child that the tick leaves invisible keeps the [paused]
    flag it had. *)
Theorem pause_reaches_visible_children (resp : Resp) (h : Handler) (s : Stage.t) :
  stage_after_dispatch handle_render resp h = Some s →
  let cull := cull_child (camera h) (countdown (paused h) (delta resp)) in
  ∃ s',
    stage (tick w handle_render resp h).1 = Some s'
    ∧ Stage.children s' ≡ₚ cull <$> Stage.children s
    ∧ (truthy (paused (tick w handle_render resp h).1) = true →
       ∀ child, child ∈ Stage.children s' →
                Child.visible child = true → Child.paused child = true)
    ∧ (∀ child, child ∈ Stage.children s →
                Child.visible (cull child) = false →
                Child.paused (cull child) = Child.paused child).
Proof.
  intros Hs cull.
  destruct (tick_with_stage w handle_render resp h s Hs)
    as (s' & Hs' & Hcs & _).
  assert (Stage.children s' ≡ₚ cull <$> Stage.children s) as Hperm.
  { rewrite Hcs. destruct (Stage.reorder s); [|done].
    apply array_sort_Permutation. }
  exists s'. split; [done|]. split; [done|]. split.
  - rewrite tick_paused. intros Hp child Hin Hv.
    rewrite Hperm in Hin. apply list_elem_of_fmap in Hin as (c & -> & _).
    by apply cull_child_paused.
  - intros child _. apply cull_child_paused.
Qed.

End TickFrame.

Lemma tick_keeps_children_witness :
  ∃ s',
    stage (tick retina still {| delta := int 16 |} layered).1 = Some s'
    ∧ length (Stage.children s') = 2%nat.
Proof.
  destruct (tick_keeps_children retina still {| delta := int 16 |} layered
              (Stage.make 1
                 [sprite "back" false true 1 None;
                  sprite "front" false true 2 None]
                 true false (Num 1) (Num 1)) eq_refl)
    as (s' & Hs' & _ & Hlen & _).
  by exists s'.
Defined.

Lemma sorted_children_keep_order_witness :
  ∃ s',
    stage (tick retina still {| delta := int 16 |} layered).1 = Some s'
    ∧ Child.name <$> Stage.children s' = ["back"; "front"].
Proof.
  destruct (sorted_children_keep_order retina still {| delta := int 16 |}
              layered
              (Stage.make 1
                 [sprite "back" false true 1 None;
                  sprite "front" false true 2 None]
                 true false (Num 1) (Num 1)) eq_refl)
    as (s' & Hs' & Hcs).
  - repeat constructor; by vm_compute.
  - exists s'. split; [done|]. by rewrite Hcs.
Defined.

Lemma pause_reaches_visible_children_witness :
  ∃ s',
    stage (tick retina still {| delta := int 16 |}
             (pause_render None layered)).1 = Some s'
    ∧ ∀ child, child ∈ Stage.children s' →
               Child.visible child = true → Child.paused child = true.
Proof.
  destruct (pause_reaches_visible_children retina still {| delta := int 16 |}
              (pause_render None layered)
              (Stage.make 1
                 [sprite "back" false true 1 None;
                  sprite "front" false true 2 None]
                 true false (Num 1) (Num 1)) eq_refl)
    as (s' & Hs' & _ & Hp & _).
  exists s'. split; [done|]. by apply Hp.
Defined.

(** ** Which handler keeps the children *)

(** X7: [load] leaves the children with a handler exactly when the handler
    is among the owner's components and no component after it has a type
    that starts with 'handler-render'; the components before it never matter.
    Otherwise, also when the handler is not in the list, it gives the
    children up and registers no listener. *)
Theorem load_keeps_children_iff (self : nat) (types : list string) (h : Handler) :
  let last_of_kind :=
    (self < length types)%nat
    ∧ ∀ j ty, types !! j = Some ty → (self < j)%nat →
              String.substring 0 14 ty ≠ "handler-render" in
  (last_of_kind → load self types h = set_additionListener true h)
  ∧ (¬ last_of_kind → load self types h = set_handleChildren false h).
Proof.
  intros last_of_kind.
  assert (load_last self 0 types None = Some self ↔ last_of_kind) as Hiff.
  { rewrite load_last_spec. subst last_of_kind. simpl. split.
    - intros [[Hr Hl]|[? _]]; [|done]. split; [lia|].
      intros j ty Hj Hlt. apply String.eqb_neq. by apply (Hl j ty).
    - intros [Hr Hl]. left. split; [lia|].
      intros j ty Hj Hlt. apply String.eqb_neq. by apply (Hl j ty). }
  unfold load. split; intros Hk.
  - by rewrite bool_decide_eq_true_2 by by apply Hiff.
  - rewrite bool_decide_eq_false_2; [done|]. by rewrite Hiff.
Qed.

Lemma load_keeps_children_iff_witness :
  load 2 ["handler-render-dom"; "logic"; "handler-render-createjs"; "audio"]
    (fresh 1)
  = set_additionListener true (fresh 1).
Proof.
  apply (load_keeps_children_iff 2
           ["handler-render-dom"; "logic"; "handler-render-createjs"; "audio"]
           (fresh 1)).
  split; [simpl; lia|].
  intros [|[|[|[|j]]]] ty Hj Hlt; simpl in Hj; try lia; try done.
  by injection Hj as <-.
Defined.

(** ** Additions pile up *)

(** X8: a handler that listens merges every addition it receives over the
    content already pending, a later addition winning key by key, and its
    next tick broadcasts the lot merged over its render message; a handler
    that does not listen ignores additions. *)
Theorem additions_accumulate (w : Window)
    (handle_render : gmap string value → Stage.t → Stage.t)
    (resp : Resp) (a1 a2 : gmap string value) (h : Handler) :
  (additionListener h = true →
   let h2 := handle_render_addition a2 (handle_render_addition a1 h) in
   extraContent h2 = Some (a2 ∪ (a1 ∪ default ∅ (extraContent h)))
   ∧ (handleChildren h = true →
      triggerEventOnChildren h = true →
      dispatched (tick w handle_render resp h2).2
      = [a2 ∪ (a1 ∪ default ∅ (extraContent h))
           ∪ <["delta" := VNum (delta resp)]> (renderMessage h)]))
  ∧ (additionListener h = false → handle_render_addition a1 h = h).
Proof.
  split.
  - intros Hl h2.
    assert (extraContent h2 = Some (a2 ∪ (a1 ∪ default ∅ (extraContent h))))
      as He.
    { subst h2. unfold handle_render_addition. rewrite Hl. simpl. rewrite Hl.
      simpl. by rewrite !copy_properties_union. }
    split; [done|]. intros Hh Ht.
    assert (handleChildren h2 = true ∧ triggerEventOnChildren h2 = true
            ∧ renderMessage h2 = renderMessage h) as (Hh2 & Ht2 & Hm2).
    { subst h2. unfold handle_render_addition. rewrite Hl. simpl. by rewrite Hl. }
    destruct (tick_primary w handle_render resp h2 h2 Hh2 Ht2) as (Hd & _).
    by rewrite Hd, He, Hm2.
  - intros Hl. unfold handle_render_addition. by rewrite Hl.
Qed.

Lemma additions_accumulate_witness :
  extraContent
    (handle_render_addition {[ "score" := VNum (int 2) ]}
       (handle_render_addition {[ "score" := VNum (int 1) ]} primary))
  = Some ({[ "score" := VNum (int 2) ]}
            ∪ ({[ "score" := VNum (int 1) ]} ∪ default ∅ (extraContent primary))).
Proof.
  exact (proj1 (proj1 (additions_accumulate retina still {| delta := int 16 |}
                         {[ "score" := VNum (int 1) ]}
                         {[ "score" := VNum (int 2) ]} primary) eq_refl)).
Defined.

(** ** The countdown over several ticks *)

(** One step of the countdown on a time that is not negative. *)
Lemma countdown_step (p d : Qc) :
  0 ≤ p → 0 ≤ d →
  ∃ p', countdown (Num p) (Num d) = Num p'
        ∧ 0 ≤ p' ∧ p' ≤ p ∧ (p ≤ d → p' = 0).
Proof.
  intros Hp Hd. destruct (Qclt_le_dec 0 p) as [Hpos|Hzero].
  - destruct (countdown_numbers p d Hpos) as (p' & Hc & H0 & Hle & Hge).
    exists p'. split; [done|]. split; [done|]. split.
    + destruct (Qclt_le_dec (p - d) 0) as [Hlt|Hnn].
      * rewrite Hle; [done|]. by apply Qclt_le_weak.
      * rewrite Hge by done. qc_lra.
    + intros Hpd. apply Hle. qc_lra.
  - assert (p = 0) as -> by by apply Qcle_antisym.
    exists 0. split; [|done]. apply countdown_idle. simpl.
    apply Qc_ltb_irrefl.
Qed.

Section Countdown.

Variable w : Window.
Variable handle_render : gmap string value → Stage.t → Stage.t.

(** X9: under ticks whose elapsed times are not negative, a countdown that
    is not negative never grows and never becomes negative, and once a tick
    has an elapsed time of at least the time the countdown started from, the
    countdown is 0 and stays 0 whatever ticks follow. *)
Theorem countdown_over_ticks (ds : list Qc) (p : Qc) (h : Handler) :
  paused h = Num p →
  0 ≤ p →
  Forall (λ d, 0 ≤ d) ds →
  ∃ p',
    paused (run w handle_render (ticks ds) h).1 = Num p'
    ∧ 0 ≤ p'
    ∧ p' ≤ p
    ∧ (Exists (λ d, p ≤ d) ds → p' = 0).
Proof.
  intros Hp Hpos Hds. revert p h Hp Hpos.
  induction Hds as [|d ds Hd Hds IH]; intros p h Hp Hpos; simpl.
  - exists p. split; [done|]. split; [done|]. split; [done|].
    intros Hex. by apply Exists_nil in Hex.
  - pose proof (tick_paused w handle_render {| delta := Num d |} h) as Ht.
    destruct (tick w handle_render {| delta := Num d |} h) as [h1 log1].
    simpl in Ht. rewrite Hp in Ht.
    destruct (countdown_step p d Hpos Hd) as (p1 & Hc & H0 & Hle & Hz).
    rewrite Hc in Ht.
    destruct (IH p1 h1 Ht H0) as (p' & Hr & H0' & Hle' & Hz').
    destruct (run w handle_render (ticks ds) h1) as [h2 log2].
    simpl in *. exists p'. split; [done|]. split; [done|].
    split; [by eapply Qcle_trans|].
    intros Hex. apply Exists_cons in Hex as [Hnow|Hlater].
    + apply Qcle_antisym; [|done]. by rewrite <- (Hz Hnow).
    + apply Hz'. eapply Exists_impl; [exact Hlater|].
      intros x Hx. simpl in Hx. by eapply Qcle_trans.
Qed.

End Countdown.

Lemma countdown_over_ticks_witness :
  paused
    (run retina still (ticks [Q2Qc 16; Q2Qc 50; Q2Qc 16])
       (pause_render (Some (int 40)) (fresh 1))).1
  = Num 0.
Proof.
  destruct (countdown_over_ticks retina still [Q2Qc 16; Q2Qc 50; Q2Qc 16]
              (Q2Qc 40) (pause_render (Some (int 40)) (fresh 1)) eq_refl
              ltac:(by vm_compute)
              ltac:(repeat constructor; by vm_compute))
    as (p' & Hp' & _ & _ & Hz).
  rewrite Hp'. f_equal. apply Hz.
  apply Exists_cons_tl, Exists_cons_hd. by vm_compute.
Defined.

(** ** A held pointer follows the camera *)

Section Follow.

Variable w : Window.

Lemma pick_of_setXY (native : NativeEvent) (s : Stage.t)
    (cam : gmap string num) (event : StageEvent) (i : Input.t) :
  pick_of native (setXY w s cam event i)
  = {| pick_event := native;
       pick_x := translator_formula (stageX event) (dpr w) (Stage.scaleX s)
                   (prop cam "x");
       pick_y := translator_formula (stageY event) (dpr w) (Stage.scaleY s)
                   (prop cam "y") |}.
Proof. done. Qed.

Lemma updated_camera_origin (cameraInfo : CameraInfo) (cam : gmap string num) :
  let cam' :=
    <["height" := viewportHeight cameraInfo]>
      (<["width" := viewportWidth cameraInfo]>
         (<["y" := viewportTop cameraInfo]>
            (<["x" := viewportLeft cameraInfo]> cam))) in
  prop cam' "x" = viewportLeft cameraInfo
  ∧ prop cam' "y" = viewportTop cameraInfo.
Proof. unfold prop. by simplify_map_eq. Qed.

(** X10: with camera-coupled movement, a camera-update that arrives while
    the pointer is held sends the owner one 'mousemove' whose world point is
    that of the last stage event seen under the new camera and scale, and
    whose native event is that of the press; after the release a
    camera-update sends none.  Without the coupling it never sends one. *)
Theorem held_pointer_follows_camera
    (down : StageEvent) (cameraInfo : CameraInfo) (h : Handler)
    (i : Input.t) (s : Stage.t) :
  input h = Some i →
  stage h = Some s →
  let held := (mousedown w down h).1 in
  (Input.cameraMovementMovesMouse i = true →
   (camera_update w cameraInfo held).2
   = [Trigger "mousemove" (pick_under w cameraInfo (nativeEvent down) down)]
   ∧ (∀ move,
        (camera_update w cameraInfo (mousemove w move held).1).2
        = [Trigger "mousemove"
             (pick_under w cameraInfo (nativeEvent down) move)])
   ∧ (∀ up, (camera_update w cameraInfo (mouseup w up held).1).2 = []))
  ∧ (Input.cameraMovementMovesMouse i = false →
     moveMouse h = None →
     (camera_update w cameraInfo held).2 = []).
Proof.
  intros Hi Hs held. subst held. unfold mousedown. rewrite Hi, Hs. simpl.
  destruct (updated_camera_origin cameraInfo (camera h)) as [Hx Hy].
  split.
  - intros Hc. rewrite Hc. split_and!.
    + unfold camera_update, call_moveMouse. simpl. rewrite Hs. simpl.
      by rewrite pick_of_setXY, Hx, Hy.
    + intros move. unfold mousemove, camera_update, call_moveMouse.
      simpl. rewrite Hs. simpl. rewrite Hs. simpl.
      by rewrite pick_of_setXY, Hx, Hy.
    + intros up. unfold mouseup, camera_update. simpl. rewrite Hs. simpl.
      rewrite Hc. simpl. by rewrite Hs.
  - intros Hc Hm. rewrite Hc. unfold camera_update. simpl.
    by rewrite Hs, Hm.
Qed.

End Follow.

Lemma held_pointer_follows_camera_witness :
  (camera_update retina (viewport 60 0 100 100 (int 1))
     (mousedown retina press following).1).2
  = [Trigger "mousemove"
       {| pick_event := nativeEvent press;
          pick_x := translator_formula (stageX press) (dpr retina)
                      (js_mul (int 1) (dpr retina)) (int 60);
          pick_y := translator_formula (stageY press) (dpr retina)
                      (js_mul (int 1) (dpr retina)) (int 0) |}].
Proof.
  exact (proj1 (proj1 (held_pointer_follows_camera retina press
                         (viewport 60 0 100 100 (int 1)) following
                         (Input.make false true None (Num 0) (Num 0))
                         (Stage.make 1 [] false false (Num 1) (Num 1))
                         eq_refl eq_refl) eq_refl)).
Defined.

(** ** Handlers that never notify, handlers that were destroyed *)

Section Silence.

Variable w : Window.
Variable handle_render : gmap string value → Stage.t → Stage.t.

Lemma tick_log_shape (resp : Resp) (h : Handler) :
  Forall (λ a, is_pick a = false) (tick w handle_render resp h).2.
Proof.
  unfold tick. pose proof (dispatch_log handle_render (prepare resp h)) as Hl.
  destruct (dispatch handle_render (prepare resp h)) as [h3 sent].
  simpl in Hl. subst sent.
  destruct (stage h3) as [s|]; simpl.
  - unfold render.
    destruct (handleChildren h), (triggerEventOnChildren h),
      (Stage.reorder _), (android4 w && _); simpl; repeat constructor.
  - destruct (handleChildren h), (triggerEventOnChildren h);
      repeat constructor.
Qed.

Lemma dispatch_input (h : Handler) :
  input (dispatch handle_render h).1 = input h
  ∧ moveMouse (dispatch handle_render h).1 = moveMouse h.
Proof.
  unfold dispatch.
  destruct (handleChildren h), (triggerEventOnChildren h), (extraContent h); done.
Qed.

Lemma tick_input (resp : Resp) (h : Handler) :
  input (tick w handle_render resp h).1 = input h
  ∧ moveMouse (tick w handle_render resp h).1 = moveMouse h.
Proof.
  destruct (tick_summary w handle_render resp h) as (st & drawn & -> & _).
  simpl. apply (dispatch_input (prepare resp h)).
Qed.

Lemma deliver_without_input (e : event) (h : Handler) :
  input h = None →
  moveMouse h = None →
  input (deliver w handle_render e h).1 = None
  ∧ moveMouse (deliver w handle_render e h).1 = None
  ∧ Forall (λ a, is_pick a = false) (deliver w handle_render e h).2.
Proof.
  intros Hi Hm. destruct e; simpl.
  - unfold load. by case_bool_decide.
  - split_and!; [done..|]. by repeat constructor.
  - unfold pause_render. destruct resp as [t|]; [destruct (truthy t)|]; done.
  - done.
  - destruct (tick_input resp h) as [-> ->].
    split_and!; [done..|]. apply tick_log_shape.
  - unfold camera_update. simpl. destruct (stage h); simpl; rewrite ?Hm.
    + done.
    + split_and!; [done..|]. by repeat constructor.
  - unfold handle_render_addition. by destruct (additionListener h).
  - unfold mousedown. by rewrite Hi.
  - unfold mouseup. by rewrite Hi.
  - unfold mousemove. by rewrite Hi.
  - unfold destroy. destruct (stage h); simpl; split_and!; try done;
      by repeat constructor.
  - done.
Qed.

(** X11: a handler constructed without a request for clicks or touches
    never sends the owner a 'mousedown', 'mouseup' or 'mousemove', whatever
    events reach it. *)
Theorem no_input_no_notification
    (stage_id : nat) (owner_has_children : bool) (definition : Definition_)
    (es : list event) :
  (∀ a, acceptInput definition = Some a →
        accept_click a = false ∧ accept_touch a = false) →
  Forall (λ a, is_pick a = false)
    (run w handle_render es
       (constructor stage_id owner_has_children definition).1).2.
Proof.
  intros Hdef.
  assert (input (constructor stage_id owner_has_children definition).1 = None
          ∧ moveMouse (constructor stage_id owner_has_children definition).1
            = None) as [Hi Hm].
  { unfold constructor. destruct (acceptInput definition) as [a|]; [|done].
    destruct (Hdef a eq_refl) as [-> ->]. done. }
  revert Hi Hm.
  generalize (constructor stage_id owner_has_children definition).1.
  induction es as [|e es IH]; intros h Hi Hm; simpl; [constructor|].
  destruct (deliver_without_input e h Hi Hm) as (Hi1 & Hm1 & Hl1).
  destruct (deliver w handle_render e h) as [h1 log1].
  specialize (IH h1 Hi1 Hm1).
  destruct (run w handle_render es h1) as [h2 log2].
  simpl in *. by apply Forall_app.
Qed.

Lemma deliver_not_through_stage (e : event) (h : Handler) :
  stage h = None →
  Forall (λ a, through_stage a = false) (deliver w handle_render e h).2.
Proof.
  intros Hs. destruct e; simpl; try by constructor.
  - rewrite Hs. by repeat constructor.
  - rewrite tick_without_stage, dispatch_log by done.
    destruct (handleChildren (prepare resp h)),
      (triggerEventOnChildren (prepare resp h)); by repeat constructor.
  - unfold camera_update. simpl. rewrite Hs. by repeat constructor.
  - unfold mousedown. rewrite Hs. destruct (input h); constructor.
  - unfold mouseup. rewrite Hs. destruct (input h); constructor.
  - unfold mousemove. rewrite Hs. destruct (input h); constructor.
  - unfold destroy. rewrite Hs. by repeat constructor.
Qed.

(** [destroy] changes [this.stage] and nothing else of the handler. *)
Lemma destroy_keeps (h : Handler) :
  (destroy h).1 = set_stage None h.
Proof.
  unfold destroy. destruct h as [[s|] ? ? ? ? ? ? ? ? ?]; done.
Qed.

(** X12: [destroy] clears [this.stage] and leaves the render message, the
    stage it holds included.  Whatever events follow, [this.stage] stays
    undefined and the handler does nothing through it or the canvas and
    sends no pointer notification: what is left is the dispatch of its
    ticks, a 'handle-render-load' without a stage, and the TypeError that a
    camera-update or a second [destroy] raises.  The dispatch still hands
    out the stage of the render message: the tick of a destroyed primary
    handler broadcasts a message whose 'stage' is the one the message held
    before, which for a handler destroyed right after its construction is
    the stage that was just dropped. *)
Theorem destroyed_handler_still_hands_out_stage (es : list event) (h : Handler) :
  stage (run w handle_render es (destroy h).1).1 = None
  ∧ Forall (λ a, through_stage a = false)
      (run w handle_render es (destroy h).1).2
  ∧ renderMessage (destroy h).1 = renderMessage h
  ∧ (∀ resp,
       handleChildren h = true →
       triggerEventOnChildren h = true →
       ∃ m,
         (tick w handle_render resp (destroy h).1).2
         = [TriggerEventOnChildren "handle-render" m]
         ∧ (default ∅ (extraContent h) !! "stage" = None →
            m !! "stage" = renderMessage h !! "stage"))
  ∧ (∀ stage_id definition resp,
       ∃ m,
         (tick w handle_render resp
            (destroy (constructor stage_id true definition).1).1).2
         = [TriggerEventOnChildren "handle-render" m]
         ∧ m !! "stage" = Some (VStage stage_id))
  ∧ (∀ cameraInfo h',
       stage h' = None → (camera_update w cameraInfo h').2 = [TypeError])
  ∧ (∀ h', stage h' = None → (destroy h').2 = [TypeError]).
Proof.
  assert (∀ resp h0,
            handleChildren h0 = true →
            triggerEventOnChildren h0 = true →
            ∃ m,
              (tick w handle_render resp (destroy h0).1).2
              = [TriggerEventOnChildren "handle-render" m]
              ∧ (default ∅ (extraContent h0) !! "stage" = None →
                 m !! "stage" = renderMessage h0 !! "stage")) as Htick.
  { intros resp h0 Hh Ht.
    rewrite tick_without_stage by apply destroy_stage.
    rewrite dispatch_log, destroy_keeps. simpl. rewrite Hh, Ht.
    eexists. split; [done|]. intros Hp.
    destruct (extraContent h0) as [extra|]; simpl in Hp.
    - by rewrite lookup_union_r, lookup_insert_ne.
    - by rewrite lookup_insert_ne. }
  split_and!.
  - apply run_stage_None, destroy_stage.
  - pose proof (destroy_stage h) as Hs. revert Hs.
    generalize (destroy h).1. clear h Htick.
    induction es as [|e es IH]; intros h Hs; simpl; [constructor|].
    pose proof (deliver_not_through_stage e h Hs) as Hl.
    pose proof (deliver_stage_None w handle_render e h Hs) as Hs1.
    destruct (deliver w handle_render e h) as [h1 log1].
    specialize (IH h1 Hs1).
    destruct (run w handle_render es h1) as [h2 log2].
    simpl in *. by apply Forall_app.
  - by rewrite destroy_keeps.
  - intros resp. apply Htick.
  - intros stage_id definition resp.
    assert (handleChildren (constructor stage_id true definition).1 = true
            ∧ triggerEventOnChildren (constructor stage_id true definition).1
              = true
            ∧ extraContent (constructor stage_id true definition).1 = None
            ∧ renderMessage (constructor stage_id true definition).1 !! "stage"
              = Some (VStage stage_id)) as (Hh & Ht & He & Hm).
    { unfold constructor.
      destruct (acceptInput definition) as [a|];
        [destruct (accept_click a || accept_touch a)|]; done. }
    destruct (Htick resp _ Hh Ht) as (m & Hlog & Hstage).
    exists m. split; [done|]. rewrite <- Hm. apply Hstage. by rewrite He.
  - intros cameraInfo h' Hs. unfold camera_update. simpl. by rewrite Hs.
  - intros h' Hs. unfold destroy. by rewrite Hs.
Qed.

End Silence.

Lemma no_input_no_notification_witness :
  Forall (λ a, is_pick a = false)
    (run retina still [StageMouseDown press; Tick {| delta := int 16 |}]
       (constructor 1 true {| def_autoClear := false; acceptInput := None |}).1).2.
Proof.
  apply (no_input_no_notification retina still 1 true
           {| def_autoClear := false; acceptInput := None |}).
  intros a Ha. discriminate Ha.
Defined.

(** * Properties of RandomSet *)

Lemma pick_lt (random : Qc) (n : nat) :
  is_random random → (0 < n)%nat → (RandomSet.pick random n < n)%nat.
Proof.
  intros [H0 H1] Hn. unfold RandomSet.pick.
  set (x := (random * inject_Z (Z.of_nat n))%Q).
  assert (0 < inject_Z (Z.of_nat n))%Q as Hpos.
  { change 0%Q with (inject_Z 0). rewrite <- Zlt_Qlt. lia. }
  assert (0 <= x)%Q as Hx0.
  { apply Qmult_le_0_compat; [exact H0|]. by apply Qlt_le_weak. }
  assert (x < inject_Z (Z.of_nat n))%Q as Hx1.
  { unfold x. rewrite <- (Qmult_1_l (inject_Z (Z.of_nat n))) at 2.
    apply Qmult_lt_r; [done|]. exact H1. }
  assert (0 ≤ Qfloor x)%Z as Hf0.
  { change 0%Z with (Qfloor (inject_Z 0)). by apply Qfloor_resp_le. }
  assert (Qfloor x < Z.of_nat n)%Z as Hf1.
  { rewrite Zlt_Qlt. eapply Qle_lt_trans; [apply Qfloor_le|done]. }
  lia.
Qed.

Section RandomSetProperties.

Context {A : Type} `{EqDecision A}.

Implicit Types (s : RandomSet.t A) (l : list A).

Lemma indices_of_seq l : (λ i, l !! i) <$> seq 0 (length l) = Some <$> l.
Proof.
  apply list_eq. intros i. rewrite !list_lookup_fmap.
  destruct (decide (i < length l)%nat) as [Hi|Hi].
  - rewrite lookup_seq_lt by done. simpl.
    destruct (lookup_lt_is_Some_2 l i Hi) as [x Hx]. by rewrite Hx.
  - rewrite lookup_seq_ge, (proj2 (lookup_ge_None l i)) by lia. done.
Qed.

Lemma get_available random s (n : nat) :
  is_random random →
  length (RandomSet.availableIndexes s) = S n →
  ∃ at_ i,
    RandomSet.availableIndexes s !! at_ = Some i
    ∧ RandomSet.get random s
      = (RandomSet.contents s !! i,
         RandomSet.make (RandomSet.contents s)
           (delete at_ (RandomSet.availableIndexes s))).
Proof.
  intros Hr Hn. unfold RandomSet.get.
  rewrite decide_False by lia.
  pose proof (pick_lt random (S n) Hr ltac:(lia)) as Hlt.
  rewrite <- Hn in Hlt.
  destruct (lookup_lt_is_Some_2 _ _ Hlt) as [i Hi].
  exists (RandomSet.pick random (length (RandomSet.availableIndexes s))), i.
  split; [done|]. by rewrite Hi.
Qed.

Lemma getMultiple_cons (r : Qc) (rs : list Qc) s :
  RandomSet.getMultiple (r :: rs) s
  = ((RandomSet.get r s).1 :: (RandomSet.getMultiple rs (RandomSet.get r s).2).1,
     (RandomSet.getMultiple rs (RandomSet.get r s).2).2).
Proof.
  change (RandomSet.getMultiple (r :: rs) s)
    with (let '(x, s1) := RandomSet.get r s in
          let '(xs, s2) := RandomSet.getMultiple rs s1 in (x :: xs, s2)).
  destruct (RandomSet.get r s) as [x s1]. cbn [fst snd].
  by destruct (RandomSet.getMultiple rs s1).
Qed.

Lemma getMultiple_drains (randoms : list Qc) s :
  length randoms = length (RandomSet.availableIndexes s) →
  Forall is_random randoms →
  (RandomSet.getMultiple randoms s).1
    ≡ₚ (λ i, RandomSet.contents s !! i) <$> RandomSet.availableIndexes s
  ∧ (RandomSet.getMultiple randoms s).2 = RandomSet.make (RandomSet.contents s) [].
Proof.
  revert s. induction randoms as [|r rs IH]; intros s Hlen Hrs.
  - destruct s as [c a]. simpl in *. destruct a; [done|discriminate].
  - apply Forall_cons_1 in Hrs as [Hr Hrs]. simpl in Hlen.
    rewrite getMultiple_cons.
    destruct (get_available r s (length rs) Hr (eq_sym Hlen))
      as (at_ & i & Hi & ->).
    set (s1 := RandomSet.make _ _).
    destruct (IH s1) as [Hperm Hend]; [|done|].
    { subst s1. simpl. rewrite length_delete by eauto. lia. }
    simpl. split; [|done]. rewrite Hperm.
    by rewrite (delete_Permutation _ _ _ Hi).
Qed.

(** X13: as many draws from a new set as it has members return every
    member once, in some order, whatever [Math.random()] yields; the draw
    after that finds the set as new. *)
Theorem draws_use_every_member_once (l : list A) (randoms : list Qc) :
  length randoms = length l →
  Forall is_random randoms →
  let drawn := RandomSet.getMultiple randoms (RandomSet.new (Some l)) in
  drawn.1 ≡ₚ Some <$> l
  ∧ ∀ random,
      RandomSet.get random drawn.2
      = RandomSet.get random (RandomSet.new (Some l)).
Proof.
  intros Hlen Hrs drawn. subst drawn.
  destruct (getMultiple_drains randoms (RandomSet.new (Some l))) as [Hperm ->];
    [simpl; by rewrite length_seq|done|].
  split.
  - rewrite Hperm. simpl. by rewrite indices_of_seq.
  - intros random. by destruct l.
Qed.

Lemma new_in_range (c : option (list A)) : RandomSet.in_range (RandomSet.new c).
Proof.
  unfold RandomSet.in_range, RandomSet.new, RandomSet.refill. simpl.
  apply Forall_forall. intros i Hi. apply elem_of_seq in Hi. lia.
Qed.

(** X14: a set made by the constructor and changed by [add] and [get]
    only keeps its available indexes inside [contents], and as long as they
    are, [get] on a set that is not empty returns one of its members, never
    [undefined]. *)
Theorem get_returns_a_member :
  (∀ c : option (list A), RandomSet.in_range (RandomSet.new c))
  ∧ (∀ (x : A) s, RandomSet.in_range s → RandomSet.in_range (RandomSet.add x s))
  ∧ (∀ random s,
       RandomSet.in_range s →
       is_random random →
       RandomSet.in_range (RandomSet.get random s).2
       ∧ (RandomSet.contents s ≠ [] →
          ∃ x, (RandomSet.get random s).1 = Some x
               ∧ x ∈ RandomSet.contents s)).
Proof.
  split_and!.
  - apply new_in_range.
  - intros x s Hs. unfold RandomSet.in_range, RandomSet.add in *. simpl.
    rewrite length_app. simpl. apply Forall_app. split.
    + eapply Forall_impl; [exact Hs|]. intros i Hi. simpl in *. lia.
    + repeat constructor. lia.
  - intros random s Hs Hr.
    set (s1 := if decide (length (RandomSet.availableIndexes s) = 0%nat)
               then RandomSet.refill s else s).
    assert (RandomSet.in_range s1 ∧ RandomSet.contents s1 = RandomSet.contents s
            ∧ (RandomSet.contents s ≠ [] →
               RandomSet.availableIndexes s1 ≠ [])) as (Hs1 & Hc1 & Hne).
    { subst s1. case_decide as Ha.
      - split_and!; [|done|].
        + unfold RandomSet.in_range, RandomSet.refill. simpl.
          apply Forall_app. split; [done|].
          apply Forall_forall. intros i Hi. apply elem_of_seq in Hi. lia.
        + intros Hc. unfold RandomSet.refill. simpl.
          destruct (RandomSet.contents s); [done|].
          intros Hnil. apply (f_equal length) in Hnil.
          rewrite length_app in Hnil. simpl in Hnil. lia.
      - split_and!; [done..|]. intros _ Hnil. by rewrite Hnil in Ha. }
    assert (RandomSet.get random s
            = (RandomSet.availableIndexes s1
                 !! RandomSet.pick random (length (RandomSet.availableIndexes s1))
                 ≫= (λ i, RandomSet.contents s1 !! i),
               RandomSet.make (RandomSet.contents s1)
                 (delete
                    (RandomSet.pick random
                       (length (RandomSet.availableIndexes s1)))
                    (RandomSet.availableIndexes s1)))) as -> by done.
    simpl. split.
    + unfold RandomSet.in_range in *. simpl.
      rewrite delete_take_drop. apply Forall_app. split.
      * by apply Forall_take.
      * by apply Forall_drop.
    + intros Hc. specialize (Hne Hc).
      assert (0 < length (RandomSet.availableIndexes s1))%nat as Hpos.
      { destruct (RandomSet.availableIndexes s1); [done|simpl; lia]. }
      pose proof (pick_lt random _ Hr Hpos) as Hlt.
      destruct (lookup_lt_is_Some_2 _ _ Hlt) as [i Hi]. rewrite Hi. simpl.
      assert (i < length (RandomSet.contents s1))%nat as Hil.
      { unfold RandomSet.in_range in Hs1.
        rewrite Forall_forall in Hs1. apply Hs1.
        by eapply list_elem_of_lookup_2. }
      destruct (lookup_lt_is_Some_2 _ _ Hil) as [x Hx].
      exists x. split; [done|]. rewrite <- Hc1.
      by eapply list_elem_of_lookup_2.
Qed.

End RandomSetProperties.

Section RandomSetRemoval.

Context {A : Type} `{EqDecision A}.

Implicit Types (s : RandomSet.t A) (l : list A).

Lemma indexOf_None {B : Type} `{EqDecision B} (x : B) (l : list B) :
  RandomSet.indexOf x l = None ↔ x ∉ l.
Proof.
  unfold RandomSet.indexOf. rewrite fmap_None, list_find_None, Forall_forall.
  split.
  - intros Hall Hx. by apply (Hall x).
  - intros Hx y Hy ->. done.
Qed.

Lemma indexOf_Some {B : Type} `{EqDecision B} (x : B) (l : list B) (i : nat) :
  RandomSet.indexOf x l = Some i →
  ∃ l1 l2 : list B,
    l = l1 ++ x :: l2 ∧ (x ∉ l1) ∧ i = length l1 ∧ delete i l = l1 ++ l2.
Proof.
  unfold RandomSet.indexOf. intros Hf.
  apply fmap_Some in Hf as ([j y] & Hf & ->). simpl.
  apply list_find_Some in Hf as (Hj & -> & Hfirst).
  exists (take j l), (drop (S j) l).
  pose proof (lookup_lt_Some _ _ _ Hj) as Hlt.
  split_and!.
  - by rewrite take_drop_middle.
  - intros Hin. apply list_elem_of_lookup in Hin as [k Hk].
    pose proof (lookup_lt_Some _ _ _ Hk) as Hkl.
    rewrite length_take in Hkl.
    rewrite lookup_take_lt in Hk by lia.
    by apply (Hfirst k x Hk); [lia|].
  - rewrite length_take. lia.
  - apply delete_take_drop.
Qed.

Lemma filter_other_id (x : A) l : x ∉ l → filter (λ y, y ≠ x) l = l.
Proof.
  induction l as [|y l IH]; [done|]. intros Hx.
  apply not_elem_of_cons in Hx as [Hne Hx].
  rewrite filter_cons, decide_True by done. by rewrite IH.
Qed.

Lemma remove_step_contents (x : A) s :
  match RandomSet.remove_step x s with
  | Some s' =>
      ∃ l1 l2, RandomSet.contents s = l1 ++ x :: l2 ∧ (x ∉ l1)
               ∧ RandomSet.contents s' = l1 ++ l2
  | None => x ∉ RandomSet.contents s
  end.
Proof.
  unfold RandomSet.remove_step.
  destruct (RandomSet.indexOf x (RandomSet.contents s)) as [i|] eqn:Hi.
  - apply indexOf_Some in Hi as (l1 & l2 & Hl & Hx & _ & Hd).
    exists l1, l2. by rewrite Hd.
  - by apply indexOf_None.
Qed.

Lemma remove_loop_all (fuel : nat) (x : A) s :
  (length (RandomSet.contents s) < fuel)%nat →
  RandomSet.contents (RandomSet.remove_loop fuel x true s)
  = filter (λ y, y ≠ x) (RandomSet.contents s).
Proof.
  revert s. induction fuel as [|fuel IH]; intros s Hlen; [lia|]. simpl.
  pose proof (remove_step_contents x s) as Hstep.
  destruct (RandomSet.remove_step x s) as [s'|].
  - destruct Hstep as (l1 & l2 & Hl & Hx & Hl').
    rewrite IH.
    + rewrite Hl, Hl', !filter_app, filter_cons, decide_False; [done|].
      by intros Hne.
    + rewrite Hl' . rewrite Hl, length_app in Hlen. simpl in Hlen.
      rewrite length_app. lia.
  - by rewrite filter_other_id.
Qed.

(** X15: [remove] of a value that is not in the set changes nothing; with
    [removeAll] it takes every occurrence out of [contents] and keeps the
    other members in their order; without, it takes out the first occurrence
    only. *)
Theorem remove_takes_out (x : A) s :
  (x ∉ RandomSet.contents s → ∀ removeAll, RandomSet.remove x removeAll s = s)
  ∧ RandomSet.contents (RandomSet.remove x true s)
    = filter (λ y, y ≠ x) (RandomSet.contents s)
  ∧ (x ∈ RandomSet.contents s →
     ∃ l1 l2, RandomSet.contents s = l1 ++ x :: l2
              ∧ (x ∉ l1)
              ∧ RandomSet.contents (RandomSet.remove x false s) = l1 ++ l2).
Proof.
  split_and!.
  - intros Hx removeAll. unfold RandomSet.remove. simpl.
    pose proof (remove_step_contents x s) as Hstep.
    destruct (RandomSet.remove_step x s) as [s'|]; [|done].
    destruct Hstep as (l1 & l2 & Hl & _). rewrite Hl in Hx.
    exfalso. apply Hx. apply elem_of_app. right. constructor.
  - apply remove_loop_all. lia.
  - intros Hx. unfold RandomSet.remove. simpl.
    pose proof (remove_step_contents x s) as Hstep.
    destruct (RandomSet.remove_step x s) as [s'|]; [|done].
    destruct Hstep as (l1 & l2 & Hl & Hx1 & Hl'). by exists l1, l2.
Qed.

(** X16: a set without members returns [undefined] at every draw and
    stays as it is. *)
Theorem empty_set_draws_undefined (randoms : list Qc) :
  RandomSet.getMultiple randoms (RandomSet.new (A := A) None)
  = (replicate (length randoms) None, RandomSet.new None)
  ∧ RandomSet.new (A := A) (Some []) = RandomSet.new None.
Proof.
  split; [|done].
  induction randoms as [|r rs IH]; [done|].
  rewrite getMultiple_cons.
  assert (RandomSet.get r (RandomSet.new (A := A) None)
          = (None, RandomSet.new None)) as Hget.
  { unfold RandomSet.get, RandomSet.new, RandomSet.refill. simpl.
    by destruct (RandomSet.pick r 0). }
  rewrite Hget. simpl. by rewrite IH.
Qed.

End RandomSetRemoval.

Lemma pick_last (m : nat) :
  (0 < m)%nat →
  ∃ random, is_random random ∧ RandomSet.pick random m = (m - 1)%nat.
Proof.
  intros Hm.
  assert (∃ z, z = Z.of_nat m ∧ (0 < z)%Z) as (z & Hzm & Hpos)
    by (eexists; split; [done|lia]).
  assert (Z.pos (Z.to_pos z) = z) as Hz by (by apply Z2Pos.id).
  exists (Q2Qc ((z - 1) # Z.to_pos z)). split.
  - unfold is_random, Qcle, Qclt. simpl. rewrite !Qred_correct.
    unfold Qle, Qlt. simpl. rewrite Hz. lia.
  - unfold RandomSet.pick. cbn [this Q2Qc]. rewrite <- Hzm.
    assert (Qred ((z - 1) # Z.to_pos z) * inject_Z z == inject_Z (z - 1))%Q
      as Heq.
    { rewrite Qred_correct. unfold Qeq. simpl.
      rewrite Pos.mul_1_r, Hz. ring. }
    rewrite (Qfloor_comp _ _ Heq), Qfloor_Z. lia.
Qed.

Section RandomSetStale.

Context {A : Type} `{EqDecision A}.

Lemma indexOf_seq (i n : nat) :
  (i < n)%nat → RandomSet.indexOf i (seq 0 n) = Some i.
Proof.
  intros Hi. unfold RandomSet.indexOf.
  assert (list_find (λ y, y = i) (seq 0 n) = Some (i, i)) as ->; [|done].
  apply list_find_Some. split_and!.
  - by rewrite lookup_seq_lt.
  - done.
  - intros j y Hj Hlt. apply lookup_seq in Hj as [-> _]. lia.
Qed.

(** X17: [remove] takes the removed position out of the available
    indexes and leaves the others as they are: after the removal of a member
    that is not the last one of a new set, the index of the former last
    member is still available though [contents] is one shorter, and there is
    a value of [Math.random()] for which the next draw returns
    [undefined]. *)
Theorem removal_leaves_stale_index (l : list A) (x : A) (i : nat) :
  RandomSet.indexOf x l = Some i →
  (S i < length l)%nat →
  let s := RandomSet.remove x false (RandomSet.new (Some l)) in
  length (RandomSet.contents s) = (length l - 1)%nat
  ∧ RandomSet.availableIndexes s = delete i (seq 0 (length l))
  ∧ (length l - 1)%nat ∈ RandomSet.availableIndexes s
  ∧ ∃ random, is_random random ∧ (RandomSet.get random s).1 = None.
Proof.
  intros Hi Hlt s.
  assert (s = RandomSet.make (delete i l) (delete i (seq 0 (length l)))) as ->.
  { subst s. unfold RandomSet.remove. simpl.
    assert (RandomSet.remove_step x (RandomSet.new (Some l))
            = Some (RandomSet.make (delete i l) (delete i (seq 0 (length l)))))
      as ->; [|done].
    unfold RandomSet.remove_step.
    change (RandomSet.contents (RandomSet.new (Some l))) with l.
    change (RandomSet.availableIndexes (RandomSet.new (Some l)))
      with (seq 0 (length l)).
    by rewrite Hi, indexOf_seq by lia. }
  simpl.
  assert (length (delete i l) = (length l - 1)%nat) as Hlen.
  { apply length_delete. apply lookup_lt_is_Some_2. lia. }
  assert (length (delete i (seq 0 (length l))) = (length l - 1)%nat) as Hlena.
  { rewrite length_delete, length_seq; [done|].
    apply lookup_lt_is_Some_2. rewrite length_seq. lia. }
  assert (delete i (seq 0 (length l)) !! (length l - 2)%nat
          = Some (length l - 1)%nat) as Hlast.
  { rewrite list_lookup_delete_ge by lia.
    rewrite lookup_seq_lt by lia. f_equal. lia. }
  split_and!; [done..| |].
  - by eapply list_elem_of_lookup_2.
  - destruct (pick_last (length l - 1)) as (random & Hr & Hp); [lia|].
    exists random. split; [done|].
    unfold RandomSet.get. simpl. rewrite Hlena, decide_False by lia.
    simpl. rewrite Hlena, Hp.
    replace (length l - 1 - 1)%nat with (length l - 2)%nat by lia.
    rewrite Hlast. simpl. apply lookup_ge_None. lia.
Qed.

End RandomSetStale.

Lemma draws_use_every_member_once_witness :
  (RandomSet.getMultiple [Q2Qc (1 # 2); Q2Qc 0; Q2Qc (9 # 10)]
     (RandomSet.new (Some ["scream"; "whisper"; "talk"]))).1
  ≡ₚ Some <$> ["scream"; "whisper"; "talk"].
Proof.
  apply (draws_use_every_member_once ["scream"; "whisper"; "talk"]
           [Q2Qc (1 # 2); Q2Qc 0; Q2Qc (9 # 10)] eq_refl).
  repeat constructor; by vm_compute.
Defined.

Lemma removal_leaves_stale_index_witness :
  RandomSet.availableIndexes
    (RandomSet.remove "scream" false
       (RandomSet.new (Some ["scream"; "whisper"; "talk"])))
  = [1; 2]%nat.
Proof.
  exact (proj1 (proj2 (removal_leaves_stale_index
                         ["scream"; "whisper"; "talk"] "scream" 0
                         eq_refl ltac:(simpl; lia)))).
Defined.

(** ** LogicCanvasButton *)

Section ButtonProperties.

Import LogicCanvasButton.

Implicit Types (b : LogicCanvasButton.t) (e : LogicCanvasButton.event)
  (es : list LogicCanvasButton.event).

Ltac handlers :=
  unfold deliver, handle_logic, mousedown, pressup, mouseover, mouseout,
    disable, enable, toggle_disabled, highlight, unhighlight,
    toggle_highlight, destroy, camera_update, with_state, get, set in *.

Ltac button_cases b :=
  handlers; destruct b as [bp [[bd bdn bhl] bbm box boy] bst bc bup bur bla];
  cbn [properties owner state cancelled usedPress usedRelease last
       Owner.state Owner.buttonMode Owner.x Owner.y
       State.disabled State.down State.highlighted
       set_owner set_state set_cancelled set_usedPress set_usedRelease
       set_last Owner.set_state Owner.set_buttonMode Owner.set_x Owner.set_y
       State.set_disabled State.set_down State.set_highlighted fst snd] in *.

Lemma button_run_app es1 es2 b :
  run (es1 ++ es2) b
  = let '(b1, log1) := run es1 b in
    let '(b2, log2) := run es2 b1 in
    (b2, log1 ++ log2).
Proof.
  revert b. induction es1 as [|e es1 IH]; intros b; simpl.
  - by destruct (run es2 b).
  - destruct (deliver e b) as [b1 log1]. rewrite IH.
    destruct (run es1 b1) as [b2 log2], (run es2 b2) as [b3 log3].
    by rewrite app_assoc.
Qed.

(** An invariant of the component that [deliver] keeps holds after every
    run. *)
Lemma button_run_invariant (P : LogicCanvasButton.t → Prop) :
  (∀ e b, P b → P (deliver e b).1) →
  ∀ es b, P b → P (run es b).1.
Proof.
  intros Hstep es. induction es as [|e es IH]; intros b Hb; simpl; [done|].
  specialize (Hstep e b Hb). destruct (deliver e b) as [b1 log1].
  specialize (IH b1 Hstep). by destruct (run es b1).
Qed.

Lemma button_deliver_properties e b : properties (deliver e b).1 = properties b.
Proof.
  destruct e; button_cases b; destruct bst; simpl; try done;
    repeat case_match; simplify_eq; done.
Qed.

Lemma button_run_properties es b : properties (run es b).1 = properties b.
Proof.
  revert b. induction es as [|e es IH]; intros b; simpl; [done|].
  pose proof (button_deliver_properties e b) as He.
  destruct (deliver e b) as [b1 log1]. specialize (IH b1).
  destruct (run es b1). simpl in *. congruence.
Qed.

Lemma button_deliver_mode e b :
  Owner.buttonMode (owner b) = negb (get State.disabled b) →
  Owner.buttonMode (owner (deliver e b).1)
  = negb (get State.disabled (deliver e b).1).
Proof.
  destruct e; button_cases b; destruct bst; simpl; try done;
    repeat case_match; simplify_eq; simpl; try done.
  intros ->. by destruct bd.
Qed.

Lemma button_deliver_cancelled_down e b :
  (cancelled b = true → get State.down b = true) →
  cancelled (deliver e b).1 = true → get State.down (deliver e b).1 = true.
Proof.
  destruct e; button_cases b; destruct bst; simpl; try done;
    repeat case_match; simplify_eq; simpl; try done.
Qed.

Lemma button_deliver_state_false e b :
  state b = false → state (deliver e b).1 = false.
Proof.
  destruct e; button_cases b; destruct bst; simpl; done.
Qed.

Lemma button_run_state_true es b :
  state (run es b).1 = true → state b = true.
Proof.
  intros H. destruct (state b) eqn:Hs; [done|].
  pose proof (button_run_invariant (λ b, state b = false)
                button_deliver_state_false es b Hs) as H'.
  simpl in H'. congruence.
Qed.

(** X18: the owner's [buttonMode] is the negation of the [disabled] state
    after every sequence of events, and the constructor starts the state
    from the [disabled] property. *)
Theorem button_mode_mirrors_disabled
    (p : Properties.t) (o : Owner.t) es :
  let b := (run es (constructor p o)).1 in
  Owner.buttonMode (owner b) = negb (get State.disabled b)
  ∧ get State.disabled (constructor p o) = Properties.disabled p.
Proof.
  split; [|done].
  apply (button_run_invariant
           (λ b, Owner.buttonMode (owner b) = negb (get State.disabled b))).
  - intros e b'. apply button_deliver_mode.
  - done.
Qed.

(** X19: on a button that is not destroyed, toggling [disabled] twice
    restores the button, and so does toggling [highlighted] twice;
    'toggle-disabled' does what 'enable' does on a disabled button and what
    'disable' does on an enabled one. *)
Theorem toggle_twice_restores (p : Properties.t) (o : Owner.t) es :
  let b := (run es (constructor p o)).1 in
  state b = true →
  run [ToggleDisabled; ToggleDisabled] b = (b, [])
  ∧ run [ToggleHighlight; ToggleHighlight] b = (b, [])
  ∧ deliver ToggleDisabled b
    = deliver (if get State.disabled b then Enable else Disable) b.
Proof.
  intros b Hs.
  pose proof (proj1 (button_mode_mirrors_disabled p o es)) as Hinv.
  fold b in Hinv. clearbody b. revert Hs Hinv.
  button_cases b. simpl. intros -> ->.
  destruct bd, bhl; done.
Qed.

(** X20: as long as a disabled button is neither enabled nor destroyed it
    triggers nothing and stops no propagation, stays disabled, and uses up
    neither its press nor its release. *)
Theorem disabled_button_is_silent es b :
  state b = true →
  get State.disabled b = true →
  Forall (λ e, enables e = false ∧ is_destroy e = false) es →
  (run es b).2 = []
  ∧ state (run es b).1 = true
  ∧ get State.disabled (run es b).1 = true
  ∧ usedPress (run es b).1 = usedPress b
  ∧ usedRelease (run es b).1 = usedRelease b.
Proof.
  intros Hs Hd Hes. revert b Hs Hd.
  induction Hes as [|e es [He1 He2] _ IH]; intros b Hs Hd; simpl; [done|].
  assert ((deliver e b).2 = []
          ∧ state (deliver e b).1 = true
          ∧ get State.disabled (deliver e b).1 = true
          ∧ usedPress (deliver e b).1 = usedPress b
          ∧ usedRelease (deliver e b).1 = usedRelease b) as (H1 & H2 & H3 & H4 & H5).
  { destruct e; try done; button_cases b; simpl in *; subst; simpl;
      repeat case_match; simplify_eq; done. }
  destruct (deliver e b) as [b1 log1]. simpl in *.
  destruct (IH b1 H2 H3) as (I1 & I2 & I3 & I4 & I5).
  destruct (run es b1) as [b2 log2]. simpl in *. subst.
  repeat split; try done; congruence.
Qed.

Lemma button_deliver_used e b :
  (usedPress b = true → usedPress (deliver e b).1 = true)
  ∧ (usedRelease b = true → usedRelease (deliver e b).1 = true).
Proof.
  destruct e; button_cases b; destruct bst; simpl; try done;
    repeat case_match; simplify_eq; done.
Qed.

(** X21: once a press has triggered on a use-once button, no later press
    triggers or stops propagation, whatever events come in between; likewise
    for a release. *)
Theorem use_once_triggers_once (p : Properties.t) (o : Owner.t) es1 es2 e :
  Properties.useOnce p = true →
  e = Mousedown ∨ e = Pressup →
  let b1 := (run es1 (constructor p o)).1 in
  existsb is_trigger (deliver e b1).2 = true →
  let b2 := (run es2 (deliver e b1).1).1 in
  (deliver e b2).2 = if state b2 then [] else [TypeError].
Proof.
  intros Hp He b1 Htr b2.
  assert (Properties.useOnce (properties b1) = true) as Hu1.
  { unfold b1. by rewrite button_run_properties. }
  assert (Properties.useOnce (properties b2) = true) as Hu2.
  { unfold b2. by rewrite button_run_properties, button_deliver_properties. }
  assert (match e with
          | Mousedown => usedPress b2 = true
          | _ => usedRelease b2 = true
          end) as Hused.
  { unfold b2.
    destruct He as [-> | ->].
    - apply (button_run_invariant (λ b, usedPress b = true)).
      + intros e b. apply button_deliver_used.
      + clearbody b1. revert Htr. button_cases b1. destruct bst; simpl; [|done].
        repeat case_match; simplify_eq; done.
    - apply (button_run_invariant (λ b, usedRelease b = true)).
      + intros e b. apply button_deliver_used.
      + clearbody b1. revert Htr. button_cases b1. destruct bst; simpl; [|done].
        repeat case_match; simplify_eq; done. }
  clearbody b2. clear Htr b1 Hu1.
  destruct He as [-> | ->]; button_cases b2; simpl in *; subst;
    destruct bst; simpl; [|done| |done].
  - rewrite Hu2. simpl. by rewrite andb_false_r.
  - rewrite Hu2. simpl. by rewrite andb_false_r.
Qed.

Lemma button_run_moves moves b :
  state b = true →
  get State.down b = true →
  Forall (λ e, is_move e = true) moves →
  let b1 := (run moves b).1 in
  state b1 = true
  ∧ get State.down b1 = true
  ∧ get State.disabled b1 = get State.disabled b
  ∧ usedRelease b1 = usedRelease b
  ∧ properties b1 = properties b
  ∧ cancelled b1 = match list.last moves with
                   | Some Mouseout => true
                   | Some _ => false
                   | None => cancelled b
                   end.
Proof.
  intros Hs Hd Hm. revert b Hs Hd.
  induction Hm as [|e moves He _ IH]; intros b Hs Hd; [done|].
  cbn [run].
  assert (state (deliver e b).1 = true
          ∧ get State.down (deliver e b).1 = true
          ∧ get State.disabled (deliver e b).1 = get State.disabled b
          ∧ usedRelease (deliver e b).1 = usedRelease b
          ∧ properties (deliver e b).1 = properties b
          ∧ cancelled (deliver e b).1
            = match e with Mouseout => true | _ => false end)
    as (H1 & H2 & H3 & H4 & H5 & H6).
  { destruct e; try done; button_cases b; simpl in *; subst; done. }
  destruct (deliver e b) as [b1 log1]. simpl in H1, H2, H3, H4, H5, H6.
  specialize (IH b1 H1 H2). cbv zeta in IH.
  destruct (run moves b1) as [b2 log2]. cbv zeta. simpl in *.
  destruct IH as (I1 & I2 & I3 & I4 & I5 & I6).
  repeat split; try congruence.
  rewrite I6. destruct moves as [|e' moves]; [by rewrite H6; destruct e|].
  rewrite last_cons_cons.
  assert (is_Some (list.last (e' :: moves))) as [x ->]
    by (by rewrite last_is_Some).
  done.
Qed.

(** X22: a press counts as cancelled at its release exactly when the
    pointer's last move since the press left the button; a button that
    reacts then triggers the cancel event or the release event accordingly,
    and the release leaves it neither down nor cancelled. *)
Theorem release_or_cancel (p : Properties.t) (o : Owner.t) es moves :
  let b := (run es (constructor p o)).1 in
  state b = true →
  get State.down b = false →
  Forall (λ e, is_move e = true) moves →
  let b1 := (run (Mousedown :: moves) b).1 in
  cancelled b1 = match list.last moves with
                 | Some Mouseout => true
                 | _ => false
                 end
  ∧ (get State.disabled b1 = false →
     Properties.useOnce p && usedRelease b1 = false →
     (deliver Pressup b1).2 = release_log b1)
  ∧ get State.down (deliver Pressup b1).1 = false
  ∧ cancelled (deliver Pressup b1).1 = false.
Proof.
  intros b Hs Hd Hm b1.
  assert (cancelled b = false) as Hc.
  { destruct (cancelled b) eqn:Hc; [|done].
    assert (get State.down b = true); [|congruence].
    revert Hc. unfold b.
    apply (button_run_invariant
             (λ b, cancelled b = true → get State.down b = true)).
    - intros e b'. apply button_deliver_cancelled_down.
    - done. }
  assert (properties b = p) as Hp.
  { unfold b. by rewrite button_run_properties. }
  clearbody b.
  assert (state (deliver Mousedown b).1 = true
          ∧ get State.down (deliver Mousedown b).1 = true
          ∧ cancelled (deliver Mousedown b).1 = false
          ∧ properties (deliver Mousedown b).1 = p) as (M1 & M2 & M3 & M4).
  { clear b1. button_cases b. simpl in *. subst.
    repeat case_match; simplify_eq; done. }
  unfold b1. cbn [run].
  destruct (deliver Mousedown b) as [bm logm]. simpl in M1, M2, M3, M4.
  pose proof (button_run_moves moves bm M1 M2 Hm) as R. cbv zeta in R.
  destruct (run moves bm) as [b2 log2]. simpl in R |- *.
  destruct R as (R1 & R2 & R3 & R4 & R5 & R6).
  assert (cancelled b2 = match list.last moves with
                         | Some Mouseout => true
                         | _ => false
                         end) as Hlast.
  { rewrite R6, M3. by destruct (list.last moves) as [[]|]. }
  split; [done|].
  clear Hlast R6 b1. rewrite M4 in R5. clear dependent bm. clear dependent b.
  unfold release_log. button_cases b2. simpl in *. subst. simpl.
  repeat split.
  - intros -> ->. simpl. by destruct bc; destruct (nonempty _).
  - by repeat case_match.
  - by repeat case_match.
Qed.

Lemma button_deliver_position e b :
  is_camera e = false →
  Owner.x (owner (deliver e b).1) = Owner.x (owner b)
  ∧ Owner.y (owner (deliver e b).1) = Owner.y (owner b).
Proof.
  destruct e; try done; intros _; button_cases b; destruct bst; simpl;
    try done; repeat case_match; simplify_eq; done.
Qed.

Lemma button_run_position es b :
  Forall (λ e, is_camera e = false) es →
  Owner.x (owner (run es b).1) = Owner.x (owner b)
  ∧ Owner.y (owner (run es b).1) = Owner.y (owner b).
Proof.
  intros Hes. revert b. induction Hes as [|e es He _ IH]; intros b; [done|].
  cbn [run]. pose proof (button_deliver_position e b He) as [H1 H2].
  destruct (deliver e b) as [b1 log1]. specialize (IH b1).
  destruct (run es b1) as [b2 log2]. simpl in *. destruct IH. split; congruence.
Qed.

(** X23: the owner's position follows the viewport of the last
    camera-update, whatever other events come after it: [x] stands [left]
    from the viewport's left edge if [left] is a number, else [right] from
    its right edge if [right] is a number, and else is what it was; [y]
    likewise with [top] before [bottom]. *)
Theorem button_follows_viewport es1 es2 (vp : AABB.t) b :
  Forall (λ e, is_camera e = false) es2 →
  let p := properties b in
  let before := owner (run es1 b).1 in
  let after := owner (run (es1 ++ CameraUpdate vp :: es2) b).1 in
  Owner.x after
  = (if is_number (Properties.left p)
     then js_add (AABB.left vp) (Properties.left p)
     else if is_number (Properties.right p)
     then js_sub (AABB.right vp) (Properties.right p)
     else Owner.x before)
  ∧ Owner.y after
    = (if is_number (Properties.top p)
       then js_add (AABB.top vp) (Properties.top p)
       else if is_number (Properties.bottom p)
       then js_sub (AABB.bottom vp) (Properties.bottom p)
       else Owner.y before).
Proof.
  intros Hes p before after. unfold after, before, p.
  rewrite button_run_app. pose proof (button_run_properties es1 b) as Hp.
  destruct (run es1 b) as [b1 log1]. simpl in Hp. rewrite <- Hp.
  cbn [run deliver].
  pose proof (button_run_position es2 (camera_update vp b1) Hes) as [Hx Hy].
  destruct (run es2 (camera_update vp b1)) as [b2 log2]. simpl in Hx, Hy |- *.
  rewrite Hx, Hy. unfold camera_update. simpl.
  split; repeat case_match; done.
Qed.

Lemma toggle_twice_restores_witness :
  let b := (run [Mousedown; Disable] (constructor play_button plain_owner)).1 in
  run [ToggleDisabled; ToggleDisabled] b = (b, []).
Proof.
  exact (proj1 (toggle_twice_restores play_button plain_owner
                  [Mousedown; Disable] eq_refl)).
Defined.

Lemma disabled_button_is_silent_witness :
  (run [Mousedown; Mouseout; Pressup; HandleLogic]
     (disable (constructor play_button plain_owner)).1).2 = [].
Proof.
  exact (proj1 (disabled_button_is_silent
                  [Mousedown; Mouseout; Pressup; HandleLogic]
                  (disable (constructor play_button plain_owner)).1
                  eq_refl eq_refl ltac:(repeat constructor))).
Defined.

Lemma use_once_triggers_once_witness :
  (deliver Mousedown
     (run [Pressup; Mouseout]
        (deliver Mousedown (constructor play_button plain_owner)).1).1).2
  = [].
Proof.
  exact (use_once_triggers_once play_button plain_owner [] [Pressup; Mouseout]
           Mousedown eq_refl (or_introl eq_refl) eq_refl).
Defined.

Lemma release_or_cancel_witness :
  cancelled
    (run [Mousedown; Mouseout; Mouseover; Mouseout]
       (constructor play_button plain_owner)).1
  = true.
Proof.
  exact (proj1 (release_or_cancel play_button plain_owner []
                  [Mouseout; Mouseover; Mouseout] eq_refl eq_refl
                  ltac:(repeat constructor))).
Defined.

Lemma button_follows_viewport_witness :
  Owner.x
    (owner
       (run [Mousedown; CameraUpdate (AABB.make (int 100) (int 900) (int 50)
                                        (int 650)); Pressup]
          (constructor play_button plain_owner)).1)
  = js_add (int 100) (int 10).
Proof.
  exact (proj1 (button_follows_viewport [Mousedown] [Pressup]
                  (AABB.make (int 100) (int 900) (int 50) (int 650))
                  (constructor play_button plain_owner)
                  ltac:(repeat constructor))).
Defined.

End ButtonProperties.

(** ** AudioVO *)

Section AudioProperties.

Import AudioVO.

Implicit Types (events : list Event.t) (c : AudioVO.t).

Lemma events_insert_Permutation (e : Event.t) events :
  array_insert sortByTime e events ≡ₚ e :: events.
Proof.
  induction events as [|d l IH]; cbn [array_insert]; [done|].
  destruct (js_gt _ _); [|done].
  rewrite IH. apply Permutation_swap.
Qed.

Lemma events_sort_Permutation events : array_sort sortByTime events ≡ₚ events.
Proof.
  induction events as [|e l IH]; cbn [array_sort]; [done|].
  by rewrite events_insert_Permutation, IH.
Qed.

Lemma sortByTime_positive (a b : Event.t) (p q : Qc) :
  Event.time a = Num p → Event.time b = Num q →
  js_gt (sortByTime a b) (Num 0) = true ↔ q < p.
Proof.
  intros Ha Hb. unfold sortByTime, js_gt. rewrite Ha, Hb. simpl.
  rewrite Qc_ltb_lt. split; intros H; qc_lra.
Qed.

Lemma events_insert_ascending (e : Event.t) events :
  timed (e :: events) → ascending events →
  ascending (array_insert sortByTime e events).
Proof.
  unfold timed, ascending. intros Ht Hs. apply Forall_cons in Ht as [[p Hp] Ht].
  induction Hs as [|d l Hl IH Hd]; cbn [array_insert].
  - repeat constructor.
  - apply Forall_cons in Ht as [[q Hq] Ht].
    destruct (js_gt (sortByTime e d) (Num 0)) eqn:Hed.
    + apply (sortByTime_positive e d p q Hp Hq) in Hed.
      constructor; [by apply IH|].
      rewrite events_insert_Permutation. constructor; [|done].
      rewrite Hp, Hq. simpl. by apply Qclt_le_weak.
    + assert (p ≤ q) as Hle.
      { apply Qcnot_lt_le. intros Hlt.
        apply (sortByTime_positive e d p q Hp Hq) in Hlt. congruence. }
      constructor; [by constructor|]. constructor; [by rewrite Hp, Hq|].
      eapply Forall_impl; [exact Hd|]. intros x Hx. simpl in Hx.
      rewrite Hq in Hx. rewrite Hp. destruct (Event.time x); try done.
      simpl in *. by eapply Qcle_trans.
Qed.

Lemma events_sort_ascending events :
  timed events → ascending (array_sort sortByTime events).
Proof.
  unfold timed. induction 1 as [|e l He Hl IH]; cbn [array_sort].
  - constructor.
  - apply events_insert_ascending; [|done].
    constructor; [done|]. fold (timed (array_sort sortByTime l)).
    unfold timed. by rewrite events_sort_Permutation.
Qed.

Lemma added_timed l : timed (added <$> l).
Proof.
  unfold timed. apply Forall_fmap, Forall_forall. intros d _. simpl.
  unfold js_or. destruct (truthy _) eqn:Ht; [|by eexists].
  destruct (Definition_.time d); try done. by eexists.
Qed.

Lemma shifted_timed (offset : Qc) l : timed (shifted (Num offset) <$> l).
Proof.
  unfold timed. apply Forall_fmap, Forall_forall. intros d _. simpl.
  unfold js_or. destruct (truthy _) eqn:Ht; [|by eexists].
  destruct (Definition_.time d); try done. by eexists.
Qed.

(** X24: when they push at least one event onto a queue whose times are
    numbers, [addEvents] and [offsetEvents] leave the queue with the old and
    the new events and nothing else, in ascending order of time, every time
    a number (an event without a time, or with time 0 or NaN, counts from
    0); with nothing to push they leave the queue as it is. *)
Theorem pushed_events_in_time_order
    (fromList : list Definition_.t) (toList : list Event.t) (offset : Qc) :
  fromList ≠ [] →
  timed toList →
  (let l := addEvents fromList toList in
   l ≡ₚ toList ++ (added <$> fromList) ∧ ascending l ∧ timed l)
  ∧ (let l := offsetEvents fromList toList (Num offset) in
     l ≡ₚ toList ++ (shifted (Num offset) <$> fromList)
     ∧ ascending l ∧ timed l)
  ∧ addEvents [] toList = toList
  ∧ offsetEvents [] toList (Num offset) = toList.
Proof.
  intros Hne Ht.
  assert (timed (toList ++ (added <$> fromList))) as Ha.
  { apply Forall_app. split; [done|apply added_timed]. }
  assert (timed (toList ++ (shifted (Num offset) <$> fromList))) as Hs.
  { apply Forall_app. split; [done|apply shifted_timed]. }
  unfold addEvents, offsetEvents.
  destruct fromList as [|d l]; [done|]. cbv zeta.
  repeat split.
  - apply events_sort_Permutation.
  - by apply events_sort_ascending.
  - unfold timed. by rewrite events_sort_Permutation.
  - apply events_sort_Permutation.
  - by apply events_sort_ascending.
  - unfold timed. by rewrite events_sort_Permutation.
  - simpl. by rewrite app_nil_r.
  - simpl. by rewrite app_nil_r.
Qed.

Lemma shift_due_ascending (completed : bool) (t : Qc) events :
  ascending events →
  shift_due false completed (Num t) events
  = (filter (λ e, js_le (Event.time e) (Num t) = false) events,
     trigger <$> filter (λ e, js_le (Event.time e) (Num t) = true) events).
Proof.
  unfold ascending. induction 1 as [|e l Hl IH He]; [done|].
  cbn [shift_due due]. destruct (js_le (Event.time e) (Num t)) eqn:Hd.
  - rewrite IH. cbn [triggers negb orb].
    rewrite filter_cons_False by congruence.
    by rewrite filter_cons_True by done.
  - rewrite filter_cons_True by done.
    rewrite (filter_cons_False (λ e, js_le (Event.time e) (Num t) = true))
      by congruence.
    assert (Forall (λ x, js_le (Event.time x) (Num t) = false) l) as Hall.
    { eapply Forall_impl; [exact He|]. intros x Hx. simpl in Hx.
      destruct (Event.time e) as [| |p]; try done.
      destruct (Event.time x) as [| |q]; try done.
      simpl in *. apply not_true_iff_false. rewrite Qc_leb_le.
      apply not_true_iff_false in Hd. rewrite Qc_leb_le in Hd.
      intros Hq. apply Hd. by eapply Qcle_trans. }
    f_equal.
    + f_equal. clear -Hall. induction Hall as [|x l Hx _ IH]; [done|].
      rewrite filter_cons_True by done. by f_equal.
    + clear -Hall. induction Hall as [|x l Hx _ IH]; [done|].
      by rewrite filter_cons_False by congruence.
Qed.

(** X25: on a queue in ascending order of time, a frame at elapsed time
    [t] triggers exactly the events whose time is at most [t], in the order
    of the queue, and leaves exactly the others. *)
Theorem frame_triggers_due_events (t : Qc) events c :
  eventList c = Some events →
  paused c = false →
  ascending events →
  eventList (handle_render (Num t) c).1
  = Some (filter (λ e, js_le (Event.time e) (Num t) = false) events)
  ∧ (handle_render (Num t) c).2
    = trigger <$> filter (λ e, js_le (Event.time e) (Num t) = true) events.
Proof.
  intros He Hp Hs. unfold handle_render, checkTimeEvents.
  rewrite Hp, He, (shift_due_ascending _ _ _ Hs). done.
Qed.

Lemma shift_due_later (completed : bool) (t1 t2 : Qc) events :
  t1 ≤ t2 →
  shift_due false completed (Num t2) events
  = let '(rest1, log1) := shift_due false completed (Num t1) events in
    let '(rest2, log2) := shift_due false completed (Num t2) rest1 in
    (rest2, log1 ++ log2).
Proof.
  intros Ht. induction events as [|e l IH]; [done|].
  cbn [shift_due due].
  destruct (js_le (Event.time e) (Num t1)) eqn:H1.
  - assert (js_le (Event.time e) (Num t2) = true) as ->.
    { destruct (Event.time e) as [| |p]; try done. simpl in *.
      rewrite Qc_leb_le in *. by eapply Qcle_trans. }
    rewrite IH.
    destruct (shift_due false completed (Num t1) l) as [rest1 log1].
    destruct (shift_due false completed (Num t2) rest1) as [rest2 log2].
    done.
  - cbn [shift_due due].
    by destruct (js_le (Event.time e) (Num t2));
      [destruct (shift_due false completed (Num t2) l)|].
Qed.

(** X26: what two frames at elapsed times [t1 <= t2] trigger one after
    the other is what a single frame at [t2] triggers, and they leave the
    component the same. *)
Theorem later_frame_subsumes (t1 t2 : Qc) c :
  t1 ≤ t2 →
  let '(c1, log1) := handle_render (Num t1) c in
  let '(c2, log2) := handle_render (Num t2) c1 in
  handle_render (Num t2) c = (c2, log1 ++ log2).
Proof.
  intros Ht. unfold handle_render, checkTimeEvents.
  destruct c as [[events|] playing [|]]; simpl; try done.
  rewrite (shift_due_later false t1 t2 events Ht).
  destruct (shift_due false false (Num t1) events) as [rest1 log1]. simpl.
  by destruct (shift_due false false (Num t2) rest1) as [rest2 log2].
Qed.

Lemma shift_due_prefix (finished completed : bool) (elapsed : num) events :
  ∃ k, shift_due finished completed elapsed events
       = (drop k events,
          trigger <$> filter (λ e, triggers finished completed e = true)
                        (take k events)).
Proof.
  induction events as [|e l [k IH]]; [by exists 0%nat|].
  cbn [shift_due]. destruct (due _ _ _).
  - exists (S k). rewrite IH. simpl.
    destruct (triggers finished completed e) eqn:Htr.
    + by rewrite filter_cons_True by done.
    + by rewrite filter_cons_False by congruence.
  - by exists 0%nat.
Qed.

Lemma shift_due_finished (completed : bool) (elapsed : num) events :
  timed events →
  shift_due true completed elapsed events
  = ([], trigger <$> filter (λ e, triggers true completed e = true) events).
Proof.
  unfold timed. induction 1 as [|e l [q He] _ IH]; [done|].
  cbn [shift_due due]. rewrite He, IH.
  destruct (triggers true completed e) eqn:Htr.
  - by rewrite filter_cons_True by done.
  - by rewrite filter_cons_False by congruence.
Qed.

Lemma renders_prefix (elapsed : list num) events c :
  eventList c = Some events →
  ∃ k, eventList (renders elapsed c).1 = Some (drop k events)
       ∧ playingAudio (renders elapsed c).1 = playingAudio c
       ∧ (renders elapsed c).2 = trigger <$> take k events.
Proof.
  revert events c. induction elapsed as [|t elapsed IH]; intros events c He.
  { exists 0%nat. by rewrite drop_0. }
  cbn [renders].
  assert (∃ k, eventList (handle_render t c).1 = Some (drop k events)
               ∧ playingAudio (handle_render t c).1 = playingAudio c
               ∧ (handle_render t c).2 = trigger <$> take k events)
    as (k & H1 & H2 & H3).
  { unfold handle_render, checkTimeEvents. destruct (paused c).
    - exists 0%nat. by rewrite drop_0.
    - rewrite He. destruct (shift_due_prefix false false t events) as [k ->].
      exists k. repeat split. simpl. f_equal.
      clear. generalize (take k events) as l. intros l.
      induction l as [|x l IH]; [done|].
      by rewrite filter_cons_True, IH by done. }
  destruct (handle_render t c) as [c1 log1]. simpl in H1, H2, H3.
  destruct (IH _ _ H1) as (k' & I1 & I2 & I3).
  destruct (renders elapsed c1) as [c2 log2]. simpl in I1, I2, I3 |- *.
  exists (k + k')%nat. rewrite I1, I2, H2, I3, H3, drop_drop.
  repeat split. rewrite <- fmap_app. f_equal.
  by rewrite take_take_drop.
Qed.

(** X27: when a sequence plays to its end, every event of the queue has
    been triggered exactly once and in the order of the queue, whatever
    elapsed times the frames in between saw and whether or not the component
    was paused; then the sound is unloaded, 'sequence-complete' is
    triggered, and the queue is empty. *)
Theorem completed_sequence_triggers_every_event
    (elapsed : list num) (at_end : num) events c :
  eventList c = Some events →
  timed events →
  let '(c1, log1) := renders elapsed c in
  let '(c2, log2) := onComplete true false at_end c1 in
  log1 ++ log2
  = (trigger <$> events) ++ [UnloadSound; TriggerEvent "sequence-complete"]
  ∧ eventList c2 = Some []
  ∧ playingAudio c2 = false.
Proof.
  intros He Ht.
  destruct (renders_prefix elapsed events c He) as (k & H1 & _ & H3).
  destruct (renders elapsed c) as [c1 log1]. simpl in H1, H3.
  unfold onComplete, checkTimeEvents. simpl. rewrite H1.
  rewrite shift_due_finished by (by apply Forall_drop).
  simpl. repeat split.
  rewrite H3, (assoc_L (++)), <- fmap_app. do 2 f_equal.
  rewrite <- (take_drop k events) at 3. f_equal.
  generalize (drop k events) as l. clear. intros l.
  induction l as [|x l IH]; [done|].
  by rewrite filter_cons_True, IH by done.
Qed.

(** X28: at the end of a sequence on an owner that is not destroyed, the
    queue is emptied: if the sequence completed every pending event is
    triggered, if it was interrupted only those that are not interruptable.
    On a destroyed owner nothing is triggered and the queue is left alone. *)
Theorem interrupted_sequence_keeps_no_event
    (completed : bool) (elapsed : num) events c :
  eventList c = Some events →
  timed events →
  (onComplete completed false elapsed c).2
  = (trigger <$> filter (λ e, completed || negb (Event.interruptable e) = true)
                   events)
      ++ [UnloadSound; TriggerEvent "sequence-complete"]
  ∧ eventList (onComplete completed false elapsed c).1 = Some []
  ∧ onComplete completed true elapsed c = (set_playingAudio false c, [UnloadSound]).
Proof.
  intros He Ht. unfold onComplete, checkTimeEvents. simpl. rewrite He.
  rewrite shift_due_finished by done. done.
Qed.

Lemma speaking_queue :
  eventList speaking
  = Some [added (Definition_.make "wave" Undefined (Message "hello"));
          added (Definition_.make "blink" (int 120) NoMessage);
          added (Definition_.make "smile" (int 300) NoMessage)].
Proof. evaluate. Qed.

Lemma speaking_timed : ∀ events, eventList speaking = Some events → timed events.
Proof.
  intros events. rewrite speaking_queue. intros [= <-].
  repeat constructor; by eexists.
Qed.

Lemma speaking_ascending :
  ∀ events, eventList speaking = Some events → ascending events.
Proof.
  intros events. rewrite speaking_queue. intros [= <-].
  repeat constructor; by vm_compute.
Qed.

Lemma pushed_events_in_time_order_witness :
  ascending (addEvents voice_events []).
Proof.
  exact (proj1 (proj2 (proj1 (pushed_events_in_time_order voice_events []
                                (Q2Qc 0) ltac:(discriminate)
                                ltac:(constructor))))).
Defined.

Lemma frame_triggers_due_events_witness :
  (handle_render (int 200) speaking).2
  = trigger <$> filter (λ e, js_le (Event.time e) (int 200) = true)
                  (addEvents voice_events []).
Proof.
  exact (proj2 (frame_triggers_due_events (Q2Qc (inject_Z 200))
                  (addEvents voice_events []) speaking eq_refl eq_refl
                  (speaking_ascending _ eq_refl))).
Defined.

Lemma later_frame_subsumes_witness :
  let '(c1, log1) := handle_render (int 100) speaking in
  let '(c2, log2) := handle_render (int 200) c1 in
  handle_render (int 200) speaking = (c2, log1 ++ log2).
Proof.
  apply (later_frame_subsumes (Q2Qc (inject_Z 100)) (Q2Qc (inject_Z 200))
           speaking).
  by vm_compute.
Defined.

Lemma completed_sequence_triggers_every_event_witness :
  let '(c1, log1) := renders [int 100; int 200] speaking in
  let '(c2, log2) := onComplete true false (int 250) c1 in
  log1 ++ log2
  = (trigger <$> addEvents voice_events [])
      ++ [UnloadSound; TriggerEvent "sequence-complete"]
  ∧ eventList c2 = Some []
  ∧ playingAudio c2 = false.
Proof.
  exact (completed_sequence_triggers_every_event [int 100; int 200] (int 250)
           (addEvents voice_events []) speaking eq_refl
           (speaking_timed _ eq_refl)).
Defined.

Lemma interrupted_sequence_keeps_no_event_witness :
  eventList (onComplete false false (int 250) speaking).1 = Some [].
Proof.
  exact (proj1 (proj2 (interrupted_sequence_keeps_no_event false (int 250)
                         (addEvents voice_events []) speaking eq_refl
                         (speaking_timed _ eq_refl)))).
Defined.

End AudioProperties.
